(** * VizFX: a shallow embedding of the effect engine core

    The development follows the TypeScript sources of the library:
    [effects/ParticleSystem.ts], [effects/FloatingParticles.ts],
    [effects/WaveEffect.ts], [effects/GradientMesh.ts], [core/Effect.ts],
    [core/VizFX.ts] and the part of [utils/interaction.ts] the engine
    uses.  [utils/math.ts] (Vec2, random) and [utils/shaders.ts] are not
    among the sources; what the effects use of them is modelled from the
    README and the specification.

    Conventions of the embedding.
    - A JavaScript [number] is an exact rational ([Q]); rounding of
      binary64 arithmetic is outside the model, except in [Binary64],
      which evaluates the rescaling of [FloatingParticles.resize] on
      primitive floats.  A property that equates numbers the code
      would round is stated with [==] and holds of exact arithmetic
      only.
      [a === b] on numbers is [Qeq_bool], [a <= b] is [Qle_bool], [a < b]
      is [Qlt_bool].
    - A number used as an array length or loop bound over an array
      (particle counts) is a [nat].
      Division by zero, which gives an infinity or NaN in JavaScript,
      gives 0 in [Q]: every property about a quotient carries the
      hypothesis that its divisor is not zero.
    - What the browser supplies ([Math.random], [Math.cos], [Math.sin],
      [Math.sqrt], [Math.PI], [performance.now], [Date.now]) is a type
      class [Host]; every property is proved for every host.
    - Mutable objects are records threaded through a state monad; the
      objects an engine shares with its caller (the effects) live in a
      store indexed by reference. *)

From Stdlib Require Import QArith Lqa List Bool Arith Lia String Ascii PrimFloat.
From stdpp Require Import base option list gmap.
Import ListNotations.

Set Default Proof Using "Type".
Open Scope Q_scope.

(** ** Numbers *)

Definition Qlt_bool (a b : Q) : bool := negb (Qle_bool b a).

(** ** The host environment *)

Class Host : Type := {
  Math_random : nat -> Q;   (* the k-th value returned by Math.random() *)
  Math_cos : Q -> Q;
  Math_sin : Q -> Q;
  Math_sqrt : Q -> Q;
  Math_PI : Q;
  performance_now : nat -> Q;  (* performance.now(), as the k-th clock reading *)
  Date_now : nat -> Q          (* Date.now(), as the k-th clock reading *)
}.

(** Calls received by the WebGL context.  Attribute and uniform plumbing
    is not logged; clears, viewport changes, resource creation and
    deletion, buffer uploads and draws are. *)
Inductive GLMode : Type := POINTS | LINES | TRIANGLES.

Inductive GLCall : Type :=
| glClear
| glViewport (w h : Q)
| glCreateProgram (p : nat)
| glCreateBuffer (b : nat)
| glDeleteProgram (p : nat)
| glDeleteBuffer (b : nat)
| glUseProgram (p : nat)
| glBufferData (b : nat) (data : list Q)
| glDrawArrays (m : GLMode) (n : nat).

(** The part of the browser state that effects read and write: how many
    times [Math.random] and [performance.now] have been called, the next
    fresh WebGL handle, and the calls the context has received (oldest
    first). *)
Record Env : Type := mkEnv {
  draws : nat;
  clockReads : nat;
  glNext : nat;
  glLog : list GLCall
}.

(** ** State passing *)

Definition State (S A : Type) : Type := S -> A * S.

Definition ret {S A} (a : A) : State S A := fun s => (a, s).

Definition bind {S A B} (c : State S A) (k : A -> State S B) : State S B :=
  fun s => let (a, s') := c s in k a s'.

Notation "x <- c ;; k" := (bind c (fun x => k))
  (at level 100, c at next level, k at level 200, right associativity).
Notation "c ;;; k" := (bind c (fun _ => k))
  (at level 100, k at level 200, right associativity).

(** Computations of the effects run over [Env]. *)
Definition M (A : Type) : Type := State Env A.

Definition gl_call (c : GLCall) : M unit :=
  fun e => (tt, mkEnv (draws e) (clockReads e) (glNext e) (glLog e ++ [c])).

Definition gl_fresh : M nat :=
  fun e => (glNext e, mkEnv (draws e) (clockReads e) (S (glNext e)) (glLog e)).

(** [if (h) { gl.delete...(h); h = null; }] *)
Definition gl_release (del : nat -> GLCall) (h : option nat) : M (option nat) :=
  match h with
  | Some p => gl_call (del p) ;;; ret None
  | None => ret None
  end.

Definition Math_random_call `{Host} : M Q :=
  fun e => (Math_random (draws e),
            mkEnv (S (draws e)) (clockReads e) (glNext e) (glLog e)).

Definition performance_now_call `{Host} : M Q :=
  fun e => (performance_now (clockReads e),
            mkEnv (draws e) (S (clockReads e)) (glNext e) (glLog e)).

Definition Date_now_call `{Host} : M Q :=
  fun e => (Date_now (clockReads e),
            mkEnv (draws e) (S (clockReads e)) (glNext e) (glLog e)).

(** ** utils/math.ts and utils/shaders.ts *)

Module VMath.

Record Vec2 : Type := mkVec2 { x : Q; y : Q }.

(** Modelled from the spec: [vec.set(x, y)] of the class Vec2 of
    utils/math.ts, which is not among the sources; the README lists the
    methods of the class.  An in-place method is modelled by the new value
    of its receiver. *)
Definition set (_ : Vec2) (nx ny : Q) : Vec2 := mkVec2 nx ny.

(** Modelled from the spec: [vec.add(other)], componentwise, in place. *)
Definition add (a b : Vec2) : Vec2 :=
  mkVec2 (x a + x b) (y a + y b).

(** Modelled from the spec: [vec.distance(other)], the Euclidean distance. *)
Definition distance `{Host} (a b : Vec2) : Q :=
  Math_sqrt ((x a - x b) * (x a - x b) + (y a - y b) * (y a - y b)).

(** Modelled from the spec: [random(min, max)], a random number between
    [min] and [max], drawn uniformly; one call to [Math.random]. *)
Definition random `{Host} (min max : Q) : M Q :=
  u <- Math_random_call ;; ret (min + u * (max - min)).

(** Modelled from the spec: [createProgram] of utils/shaders.ts, which is
    not among the sources, compiles and links a program object from a pair
    of shader sources. *)
Definition createProgram : M (option nat) :=
  p <- gl_fresh ;; gl_call (glCreateProgram p) ;;; ret (Some p).

(** [gl.createBuffer()] *)
Definition createBuffer : M (option nat) :=
  b <- gl_fresh ;; gl_call (glCreateBuffer b) ;;; ret (Some b).

(** Modelled from the spec: [createQuad] of utils/shaders.ts, the
    quad-geometry helper: a buffer holding the quad. *)
Definition createQuad : M (option nat) :=
  b <- gl_fresh ;; gl_call (glCreateBuffer b) ;;;
  gl_call (glBufferData b []) ;;; ret (Some b).

End VMath.
Import VMath.

(** ** hexToRgb

    The private method [hexToRgb] of FloatingParticles, WaveEffect and
    GradientMesh (the same text in the three classes): the regular
    expression [/^#?([a-f\d]{2})([a-f\d]{2})([a-f\d]{2})$/i], then
    [parseInt(.., 16) / 255] on each group, or white when the string does
    not match. *)

Module Color.

Record RGB : Type := mkRGB { r : Q; g : Q; b : Q }.

(** The value of a character of the class [[a-f\d]] under the flag [i]. *)
Definition hexDigit (c : ascii) : option Z :=
  let n := Z.of_nat (nat_of_ascii c) in
  if (48 <=? n)%Z && (n <=? 57)%Z then Some (n - 48)%Z
  else if (97 <=? n)%Z && (n <=? 102)%Z then Some (n - 87)%Z
  else if (65 <=? n)%Z && (n <=? 70)%Z then Some (n - 55)%Z
  else None.

(** [parseInt] in base 16 of a group of two such characters. *)
Definition group (hi lo : ascii) : option Z :=
  match hexDigit hi, hexDigit lo with
  | Some h, Some l => Some (16 * h + l)%Z
  | _, _ => None
  end.

(** The three groups of the match, or [None] when [exec] returns null. *)
Definition exec (hex : string) : option (Z * Z * Z) :=
  let body := match hex with
              | String "#" rest => rest
              | _ => hex
              end in
  match body with
  | String c1 (String c2 (String c3 (String c4 (String c5 (String c6
      EmptyString))))) =>
      match group c1 c2, group c3 c4, group c5 c6 with
      | Some x1, Some x2, Some x3 => Some (x1, x2, x3)
      | _, _, _ => None
      end
  | _ => None
  end.

Definition white : RGB := mkRGB 1 1 1.

Definition hexToRgb (hex : string) : RGB :=
  match exec hex with
  | Some (x1, x2, x3) =>
      mkRGB (inject_Z x1 / 255) (inject_Z x2 / 255) (inject_Z x3 / 255)
  | None => white
  end.

End Color.

(** ** effects/ParticleSystem.ts *)

Module ParticleSystem.

Record Options : Type := mkOptions {
  count : nat;
  color : string;
  size : Q;
  speed : Q;
  lifetime : Q;
  gravity : Vec2;
  emitterPosition : Vec2;
  emitterRadius : Q;
  fadeOut : bool
}.

Record Particle : Type := mkParticle {
  position : Vec2;
  velocity : Vec2;
  life : Q;
  maxLife : Q;
  psize : Q
}.

Record t : Type := mk {
  options : Options;
  particles : list Particle;
  program : option nat;
  positionBuffer : option nat;
  width : Q;
  height : Q
}.

Definition defaults : Options :=
  mkOptions 1000 "#ffffff" 3 100 3 (mkVec2 0 (-50)) (mkVec2 0 0) 50 true.

(** [new ParticleSystem(options)], the options already merged with the
    defaults. *)
Definition new (o : Options) : t := mk o [] None None 0 0.

Definition with_particles (s : t) (ps : list Particle) : t :=
  mk (options s) ps (program s) (positionBuffer s) (width s) (height s).

Definition with_emitter (o : Options) (v : Vec2) : Options :=
  mkOptions (count o) (color o) (size o) (speed o) (lifetime o) (gravity o)
            v (emitterRadius o) (fadeOut o).

Definition with_count (o : Options) (n : nat) : Options :=
  mkOptions n (color o) (size o) (speed o) (lifetime o) (gravity o)
            (emitterPosition o) (emitterRadius o) (fadeOut o).

Definition with_color (o : Options) (c : string) : Options :=
  mkOptions (count o) c (size o) (speed o) (lifetime o) (gravity o)
            (emitterPosition o) (emitterRadius o) (fadeOut o).

Section WithHost.
Context `{Host}.

Definition createParticle (o : Options) : M Particle :=
  angle <- random 0 (Math_PI * 2) ;;
  radius <- random 0 (emitterRadius o) ;;
  spd <- random (speed o * (1#2)) (speed o * (3#2)) ;;
  sz <- random (size o * (1#2)) (size o * (3#2)) ;;
  ret (mkParticle
         (mkVec2 (x (emitterPosition o) + Math_cos angle * radius)
                 (y (emitterPosition o) + Math_sin angle * radius))
         (mkVec2 (Math_cos angle * spd) (Math_sin angle * spd))
         (lifetime o) (lifetime o) sz).

(** [n] successive [push(createParticle())]. *)
Fixpoint emit (o : Options) (n : nat) : M (list Particle) :=
  match n with
  | O => ret []
  | S n' => p <- createParticle o ;; ps <- emit o n' ;; ret (p :: ps)
  end.

Definition initParticles (s : t) : M t :=
  ps <- emit (options s) (count (options s)) ;; ret (with_particles s ps).

Definition init (s : t) : M t :=
  prog <- createProgram ;;
  buf <- createBuffer ;;
  initParticles
    (mk (options s) (particles s) prog buf (width s) (height s)).

(** One iteration of the loop body of [update] on the particle at the
    current index: the new particle at that index. *)
Definition step (o : Options) (deltaTime : Q) (p : Particle) : M Particle :=
  let life' := life p - deltaTime in
  if Qle_bool life' 0 then createParticle o
  else
    let v := add (velocity p)
                 (mkVec2 (x (gravity o) * deltaTime)
                         (y (gravity o) * deltaTime)) in
    let pos := add (position p)
                   (mkVec2 (x v * deltaTime) (y v * deltaTime)) in
    ret (mkParticle pos v life' (maxLife p) (psize p)).

Fixpoint update_loop (o : Options) (deltaTime : Q) (ps : list Particle)
  : M (list Particle) :=
  match ps with
  | [] => ret []
  | p :: rest =>
      p' <- step o deltaTime p ;;
      rest' <- update_loop o deltaTime rest ;;
      ret (p' :: rest')
  end.

Definition update (time deltaTime : Q) (s : t) : M t :=
  ps <- update_loop (options s) deltaTime (particles s) ;;
  ret (with_particles s ps).

(** The four floats uploaded per particle.  The quotients are those of
    the code only where [width], [height] and [maxLife] are not zero. *)
Definition vertex (s : t) (p : Particle) : list Q :=
  [ x (position p) / width s * 2 - 1;
    y (position p) / height s * 2 - 1;
    psize p;
    if fadeOut (options s) then life p / maxLife p else 1 ].

Definition render (s : t) : M unit :=
  match program s, positionBuffer s with
  | Some prog, Some buf =>
      gl_call (glUseProgram prog) ;;;
      gl_call (glBufferData buf (flat_map (vertex s) (particles s))) ;;;
      gl_call (glDrawArrays POINTS (length (particles s)))
  | _, _ => ret tt
  end.

Definition resize (w h : Q) (s : t) : t :=
  let o := options s in
  let o' :=
    if Qeq_bool (x (emitterPosition o)) 0 && Qeq_bool (y (emitterPosition o)) 0
    then with_emitter o (set (emitterPosition o) (w / 2) (h / 2))
    else o in
  mk o' (particles s) (program s) (positionBuffer s) w h.

Definition destroy (s : t) : M t :=
  prog <- gl_release glDeleteProgram (program s) ;;
  buf <- gl_release glDeleteBuffer (positionBuffer s) ;;
  ret (mk (options s) (particles s) prog buf (width s) (height s)).

Definition setEmitterPosition (nx ny : Q) (s : t) : t :=
  mk (with_emitter (options s) (set (emitterPosition (options s)) nx ny))
     (particles s) (program s) (positionBuffer s) (width s) (height s).

Definition setColor (c : string) (s : t) : t :=
  mk (with_color (options s) c)
     (particles s) (program s) (positionBuffer s) (width s) (height s).

(** [while (length < count) push(createParticle())], then
    [if (length > count) length = count]. *)
Definition setCount (n : nat) (s : t) : M t :=
  let o := with_count (options s) n in
  extra <- emit o (n - length (particles s))%nat ;;
  let grown := particles s ++ extra in
  let ps := if (n <? length grown)%nat then firstn n grown else grown in
  ret (mk o ps (program s) (positionBuffer s) (width s) (height s)).

(** Calls a client makes on an initialised system, and their effect
    in sequence. *)
Inductive Op : Type :=
| OpUpdate (time deltaTime : Q)
| OpRender
| OpResize (w h : Q)
| OpSetEmitterPosition (nx ny : Q)
| OpSetColor (c : string)
| OpSetCount (n : nat).

Definition call (op : Op) (s : t) : M t :=
  match op with
  | OpUpdate time deltaTime => update time deltaTime s
  | OpRender => render s ;;; ret s
  | OpResize w h => ret (resize w h s)
  | OpSetEmitterPosition nx ny => ret (setEmitterPosition nx ny s)
  | OpSetColor c => ret (setColor c s)
  | OpSetCount n => setCount n s
  end.

Fixpoint run (ops : list Op) (s : t) : M t :=
  match ops with
  | [] => ret s
  | op :: ops' => s' <- call op s ;; run ops' s'
  end.

(** The argument of the last [setCount] among [ops], or [c]. *)
Fixpoint lastCount (ops : list Op) (c : nat) : nat :=
  match ops with
  | [] => c
  | OpSetCount n :: ops' => lastCount ops' n
  | _ :: ops' => lastCount ops' c
  end.

End WithHost.

End ParticleSystem.

(** ** effects/FloatingParticles.ts *)

Module FloatingParticles.

Record Options : Type := mkOptions {
  count : nat;
  color : string;
  size : Q;
  speed : Q;
  connectionDistance : Q;
  showConnections : bool
}.

Record FloatingParticle : Type := mkParticle {
  position : Vec2;
  velocity : Vec2;
  psize : Q
}.

Record t : Type := mk {
  options : Options;
  particles : list FloatingParticle;
  particleProgram : option nat;
  lineProgram : option nat;
  particleBuffer : option nat;
  lineBuffer : option nat;
  width : Q;
  height : Q
}.

Definition defaults : Options := mkOptions 100 "#ffffff" 2 20 150 true.

Definition new (o : Options) : t := mk o [] None None None None 0 0.

Definition with_particles (s : t) (ps : list FloatingParticle) : t :=
  mk (options s) ps (particleProgram s) (lineProgram s)
     (particleBuffer s) (lineBuffer s) (width s) (height s).

Definition with_size (s : t) (w h : Q) : t :=
  mk (options s) (particles s) (particleProgram s) (lineProgram s)
     (particleBuffer s) (lineBuffer s) w h.

(** A connection found by [renderConnections]: the indices of its two
    particles (kept for the statement of properties; the source only
    keeps the six floats of [edgeData]), the particles and the alpha. *)
Record Edge : Type := mkEdge {
  src : nat;
  dst : nat;
  p1 : FloatingParticle;
  p2 : FloatingParticle;
  alpha : Q
}.

Section WithHost.
Context `{Host}.

Definition spawn (s : t) : M FloatingParticle :=
  px <- random 0 (width s) ;;
  py <- random 0 (height s) ;;
  vx <- random (- speed (options s)) (speed (options s)) ;;
  vy <- random (- speed (options s)) (speed (options s)) ;;
  sz <- random (size (options s) * (1#2)) (size (options s) * (3#2)) ;;
  ret (mkParticle (mkVec2 px py) (mkVec2 vx vy) sz).

Fixpoint spawn_many (s : t) (n : nat) : M (list FloatingParticle) :=
  match n with
  | O => ret []
  | S n' => p <- spawn s ;; ps <- spawn_many s n' ;; ret (p :: ps)
  end.

Definition initParticles (s : t) : M t :=
  ps <- spawn_many s (count (options s)) ;; ret (with_particles s ps).

Definition init (s : t) : M t :=
  pprog <- createProgram ;;
  lprog <- createProgram ;;
  pbuf <- createBuffer ;;
  lbuf <- createBuffer ;;
  initParticles
    (mk (options s) (particles s) pprog lprog pbuf lbuf (width s) (height s)).

(** The two consecutive [if]s that wrap one coordinate. *)
Definition wrap (limit c : Q) : Q :=
  let c1 := if Qlt_bool c 0 then limit else c in
  if Qlt_bool limit c1 then 0 else c1.

Definition move (w h deltaTime : Q) (p : FloatingParticle) : FloatingParticle :=
  let px := x (position p) + x (velocity p) * deltaTime in
  let py := y (position p) + y (velocity p) * deltaTime in
  mkParticle (mkVec2 (wrap w px) (wrap h py)) (velocity p) (psize p).

Definition update (time deltaTime : Q) (s : t) : t :=
  with_particles s (map (move (width s) (height s) deltaTime) (particles s)).

(** The three floats uploaded per particle.  The quotients are those of
    the code only where [width] and [height] are not zero. *)
Definition vertex (s : t) (p : FloatingParticle) : list Q :=
  [ x (position p) / width s * 2 - 1;
    y (position p) / height s * 2 - 1;
    psize p ].

Definition renderParticles (s : t) : M unit :=
  match particleProgram s, particleBuffer s with
  | Some prog, Some buf =>
      gl_call (glUseProgram prog) ;;;
      gl_call (glBufferData buf (flat_map (vertex s) (particles s))) ;;;
      gl_call (glDrawArrays POINTS (length (particles s)))
  | _, _ => ret tt
  end.

(** The inner loop [for (j = i + 1; ...)]: [rest] are the particles at
    indices [j], [j+1], ... *)
Fixpoint inner (maxDist : Q) (i : nat) (a : FloatingParticle) (j : nat)
         (rest : list FloatingParticle) : list Edge :=
  match rest with
  | [] => []
  | b :: rest' =>
      let dist := distance (position a) (position b) in
      (if Qlt_bool dist maxDist
       then [mkEdge i j a b (1 - dist / maxDist)]
       else [])
      ++ inner maxDist i a (S j) rest'
  end.

(** The outer loop [for (i = ...)]: [ps] are the particles at indices
    [i], [i+1], ... *)
Fixpoint outer (maxDist : Q) (i : nat) (ps : list FloatingParticle)
  : list Edge :=
  match ps with
  | [] => []
  | a :: rest => inner maxDist i a (S i) rest ++ outer maxDist (S i) rest
  end.

Definition connections (s : t) : list Edge :=
  outer (connectionDistance (options s)) 0%nat (particles s).

(** The six floats uploaded per connection.  The quotients are those of
    the code only where [width] and [height] are not zero. *)
Definition edgeData (s : t) (e : Edge) : list Q :=
  [ x (position (p1 e)) / width s * 2 - 1;
    y (position (p1 e)) / height s * 2 - 1;
    alpha e;
    x (position (p2 e)) / width s * 2 - 1;
    y (position (p2 e)) / height s * 2 - 1;
    alpha e ].

Definition lineData (s : t) : list Q :=
  flat_map (edgeData s) (connections s).

Definition renderConnections (s : t) : M unit :=
  match lineProgram s, lineBuffer s with
  | Some prog, Some buf =>
      gl_call (glUseProgram prog) ;;;
      match lineData s with
      | [] => ret tt
      | data =>
          gl_call (glBufferData buf data) ;;;
          gl_call (glDrawArrays LINES (length data / 3)%nat)
      end
  | _, _ => ret tt
  end.

Definition render (s : t) : M unit :=
  match particleProgram s, particleBuffer s with
  | Some _, Some _ =>
      (if showConnections (options s) && bool_decide (is_Some (lineProgram s))
          && bool_decide (is_Some (lineBuffer s))
       then renderConnections s else ret tt) ;;;
      renderParticles s
  | _, _ => ret tt
  end.

(** [(p.position.x / oldWidth) * width], and the same for y, as an
    expression over exact rationals.  The code rounds the quotient and
    the product in binary64 ([Binary64.rescale]), so the value is the
    code's only up to rounding: a property about the value is stated
    with [==], as a fact of exact arithmetic. *)
Definition rescale (oldWidth oldHeight w h : Q) (p : FloatingParticle)
  : FloatingParticle :=
  mkParticle (mkVec2 (x (position p) / oldWidth * w)
                     (y (position p) / oldHeight * h))
             (velocity p) (psize p).

Definition resize (w h : Q) (s : t) : M t :=
  let oldWidth := width s in
  let oldHeight := height s in
  let s' := with_size s w h in
  if Qlt_bool 0 oldWidth && Qlt_bool 0 oldHeight
  then ret (with_particles s' (map (rescale oldWidth oldHeight w h) (particles s')))
  else initParticles s'.

Definition destroy (s : t) : M t :=
  pprog <- gl_release glDeleteProgram (particleProgram s) ;;
  lprog <- gl_release glDeleteProgram (lineProgram s) ;;
  pbuf <- gl_release glDeleteBuffer (particleBuffer s) ;;
  lbuf <- gl_release glDeleteBuffer (lineBuffer s) ;;
  ret (mk (options s) (particles s) pprog lprog pbuf lbuf (width s) (height s)).

(** Calls a host makes on an initialised effect, and their effect in
    sequence. *)
Inductive Op : Type :=
| OpUpdate (time deltaTime : Q)
| OpRender
| OpResize (w h : Q).

Definition call (op : Op) (s : t) : M t :=
  match op with
  | OpUpdate time deltaTime => ret (update time deltaTime s)
  | OpRender => render s ;;; ret s
  | OpResize w h => resize w h s
  end.

Fixpoint run (ops : list Op) (s : t) : M t :=
  match ops with
  | [] => ret s
  | op :: ops' => s' <- call op s ;; run ops' s'
  end.

End WithHost.

End FloatingParticles.

(** ** effects/WaveEffect.ts and effects/GradientMesh.ts *)

Module WaveEffect.

Record Options : Type := mkOptions {
  amplitude : Q;
  frequency : Q;
  speed : Q;
  color1 : string;
  color2 : string
}.

Record t : Type := mk {
  options : Options;
  program : option nat;
  quadBuffer : option nat;
  width : Q;
  height : Q
}.

Definition defaults : Options := mkOptions (1#10) 3 1 "#6366f1" "#8b5cf6".

Definition new (o : Options) : t := mk o None None 0 0.

Definition init (s : t) : M t :=
  prog <- createProgram ;;
  quad <- createQuad ;;
  ret (mk (options s) prog quad (width s) (height s)).

(** Animation is handled in the shader. *)
Definition update (time deltaTime : Q) (s : t) : t := s.

(** The uniform [u_time] is read from [performance.now()]. *)
Definition render `{Host} (s : t) : M unit :=
  match program s, quadBuffer s with
  | Some prog, Some _ =>
      gl_call (glUseProgram prog) ;;;
      performance_now_call ;;;
      gl_call (glDrawArrays TRIANGLES 6)
  | _, _ => ret tt
  end.

Definition resize (w h : Q) (s : t) : t :=
  mk (options s) (program s) (quadBuffer s) w h.

Definition destroy (s : t) : M t :=
  prog <- gl_release glDeleteProgram (program s) ;;
  quad <- gl_release glDeleteBuffer (quadBuffer s) ;;
  ret (mk (options s) prog quad (width s) (height s)).

End WaveEffect.

Module GradientMesh.

Record Options : Type := mkOptions {
  colors : list string;
  speed : Q;
  complexity : Q
}.

Record t : Type := mk {
  options : Options;
  program : option nat;
  quadBuffer : option nat;
  width : Q;
  height : Q
}.

Definition defaults : Options :=
  mkOptions ["#667eea"; "#764ba2"; "#f093fb"; "#4facfe"]%string (1#2) 3.

Definition new (o : Options) : t := mk o None None 0 0.

Definition init (s : t) : M t :=
  prog <- createProgram ;;
  quad <- createQuad ;;
  ret (mk (options s) prog quad (width s) (height s)).

Definition update (time deltaTime : Q) (s : t) : t := s.

(** The uniform [u_time] is read from [performance.now()]. *)
Definition render `{Host} (s : t) : M unit :=
  match program s, quadBuffer s with
  | Some prog, Some _ =>
      gl_call (glUseProgram prog) ;;;
      performance_now_call ;;;
      gl_call (glDrawArrays TRIANGLES 6)
  | _, _ => ret tt
  end.

Definition resize (w h : Q) (s : t) : t :=
  mk (options s) (program s) (quadBuffer s) w h.

Definition destroy (s : t) : M t :=
  prog <- gl_release glDeleteProgram (program s) ;;
  quad <- gl_release glDeleteBuffer (quadBuffer s) ;;
  ret (mk (options s) prog quad (width s) (height s)).

(** The colours uploaded to [u_color1] .. [u_color4] by [render]:
    [colors.slice(0, 4)], then the last element pushed until there are
    four.  An element read out of an empty array is [undefined] ([None]),
    which [hexToRgb] converts to the string "undefined". *)
Fixpoint fill (fuel : nat) (colors : list (option string))
  : list (option string) :=
  match fuel with
  | O => colors
  | S fuel' =>
      if (length colors <? 4)%nat
      then fill fuel' (colors ++ [mjoin (last colors)])
      else colors
  end.

Definition shaderColors (s : t) : list Color.RGB :=
  let sliced := map Some (firstn 4 (colors (options s))) in
  map (fun c => Color.hexToRgb (default "undefined"%string c))
      (fill (4 - length sliced) sliced).

End GradientMesh.

(** ** core/Effect.ts *)

Module Effect.

(** The interface [Effect]: the five methods, each returning the new
    state of the receiver. *)
Class t (E : Type) : Type := {
  init : E -> M E;
  update : Q -> Q -> E -> M E;
  render : E -> M unit;
  resize : Q -> Q -> E -> M E;
  destroy : E -> M E
}.

(** The effect classes of the library that implement it. *)
Inductive Any : Type :=
| Particles (s : ParticleSystem.t)
| Floating (s : FloatingParticles.t)
| Wave (s : WaveEffect.t)
| Gradient (s : GradientMesh.t).

Definition lift {A B} (f : A -> B) (c : M A) : M B := a <- c ;; ret (f a).

Section Instances.
Context `{Host}.

#[export] Instance particleSystem : t ParticleSystem.t := {
  init := ParticleSystem.init;
  update := ParticleSystem.update;
  render := ParticleSystem.render;
  resize w h s := ret (ParticleSystem.resize w h s);
  destroy := ParticleSystem.destroy
}.

#[export] Instance floatingParticles : t FloatingParticles.t := {
  init := FloatingParticles.init;
  update time dt s := ret (FloatingParticles.update time dt s);
  render := FloatingParticles.render;
  resize := FloatingParticles.resize;
  destroy := FloatingParticles.destroy
}.

#[export] Instance waveEffect : t WaveEffect.t := {
  init := WaveEffect.init;
  update time dt s := ret (WaveEffect.update time dt s);
  render := WaveEffect.render;
  resize w h s := ret (WaveEffect.resize w h s);
  destroy := WaveEffect.destroy
}.

#[export] Instance gradientMesh : t GradientMesh.t := {
  init := GradientMesh.init;
  update time dt s := ret (GradientMesh.update time dt s);
  render := GradientMesh.render;
  resize w h s := ret (GradientMesh.resize w h s);
  destroy := GradientMesh.destroy
}.

(** Dynamic dispatch on the class of the object. *)
Definition dispatch (f : forall E, t E -> E -> M E) (e : Any) : M Any :=
  match e with
  | Particles s => lift Particles (f _ particleSystem s)
  | Floating s => lift Floating (f _ floatingParticles s)
  | Wave s => lift Wave (f _ waveEffect s)
  | Gradient s => lift Gradient (f _ gradientMesh s)
  end.

#[export] Instance any : t Any := {
  init := dispatch (fun E I => @init E I);
  update time dt := dispatch (fun E I => @update E I time dt);
  render e :=
    match e with
    | Particles s => render s
    | Floating s => render s
    | Wave s => render s
    | Gradient s => render s
    end;
  resize w h := dispatch (fun E I => @resize E I w h);
  destroy := dispatch (fun E I => @destroy E I)
}.

End Instances.

End Effect.

(** ** utils/interaction.ts (the part the engine uses) *)

Module InteractionManager.

Record PointerState : Type := mkPointer {
  position : Vec2;
  normalized : Vec2;
  velocity : Vec2;
  isDown : bool
}.

Record t : Type := mk {
  pointer : PointerState;
  lastPosition : Vec2;
  lastTime : Q
}.

(** [new InteractionManager(canvas)]; [dateNow] is the reading of
    [Date.now()].  The listeners it installs on the canvas are never
    removed and are not part of the model. *)
Definition new (dateNow : Q) : t :=
  mk (mkPointer (mkVec2 0 0) (mkVec2 0 0) (mkVec2 0 0) false)
     (mkVec2 0 0) dateNow.

Definition handleDown (m : t) : t :=
  mk (mkPointer (position (pointer m)) (normalized (pointer m))
                (velocity (pointer m)) true)
     (lastPosition m) (lastTime m).

Definition handleUp (m : t) : t :=
  mk (mkPointer (position (pointer m)) (normalized (pointer m))
                (set (velocity (pointer m)) 0 0) false)
     (lastPosition m) (lastTime m).

(** The body of [destroy] is empty. *)
Definition destroy (m : t) : t := m.

(** [canvas.getBoundingClientRect()] *)
Record Rect : Type := mkRect {
  left : Q;
  top : Q;
  rwidth : Q;
  rheight : Q
}.

(** [Math.max(a, 1)] *)
Definition atLeastOne (a : Q) : Q := if Qlt_bool a 1 then 1 else a.

Definition handleMove `{Host} (rect : Rect) (clientX clientY : Q) (m : t) : M t :=
  let px := clientX - left rect in
  let py := clientY - top rect in
  let lastPosition' :=
    set (lastPosition m) (x (position (pointer m))) (y (position (pointer m))) in
  let position' := set (position (pointer m)) px py in
  let normalized' :=
    set (normalized (pointer m))
        (px / rwidth rect * 2 - 1) (- (py / rheight rect) * 2 + 1) in
  now <- Date_now_call ;;
  let dt := atLeastOne (now - lastTime m) / 1000 in
  let dx := x position' - x lastPosition' in
  let dy := y position' - y lastPosition' in
  ret (mk (mkPointer position' normalized'
                     (set (velocity (pointer m)) (dx / dt) (dy / dt))
                     (isDown (pointer m)))
          lastPosition' now).

(** The events the constructor listens to on the canvas; a touch event
    carries the client coordinates of its touches. *)
Inductive Event : Type :=
| MouseMove (clientX clientY : Q)
| MouseDown
| MouseUp
| MouseLeave
| TouchMove (touches : list (Q * Q))
| TouchStart (touches : list (Q * Q))
| TouchEnd.

Definition dispatch `{Host} (rect : Rect) (ev : Event) (m : t) : M t :=
  match ev with
  | MouseMove cx cy => handleMove rect cx cy m
  | MouseDown => ret (handleDown m)
  | MouseUp => ret (handleUp m)
  | MouseLeave => ret (handleUp m)
  | TouchMove ((cx, cy) :: _) => handleMove rect cx cy m
  | TouchMove [] => ret m
  | TouchStart ((cx, cy) :: _) =>
      m' <- handleMove rect cx cy m ;; ret (handleDown m')
  | TouchStart [] => ret m
  | TouchEnd => ret (handleUp m)
  end.

Fixpoint dispatch_all `{Host} (rect : Rect) (evs : list Event) (m : t) : M t :=
  match evs with
  | [] => ret m
  | ev :: evs' => m' <- dispatch rect ev m ;; dispatch_all rect evs' m'
  end.

Definition getPointer (m : t) : PointerState := pointer m.

End InteractionManager.

(** ** core/VizFX.ts *)

Module VizFX.

Record Canvas : Type := mkCanvas {
  cwidth : Q;               (* canvas.width *)
  cheight : Q;              (* canvas.height *)
  clientWidth : Q;
  clientHeight : Q;
  styleWidth : option Q;    (* canvas.style.width, in px *)
  styleHeight : option Q
}.

(** [options.canvas]: a selector (with what [querySelector] finds for
    it), a canvas element, or nothing. *)
Inductive CanvasArg : Type :=
| Selector (found : option Canvas)
| Element (c : Canvas)
| Missing.

Record Options : Type := mkOptions {
  canvas_arg : CanvasArg;
  opt_width : option Q;
  opt_height : option Q;
  opt_dpr : option Q
}.

Record t : Type := mk {
  canvas : Canvas;
  gl : bool;                        (* whether this.gl is non-null *)
  effects : list nat;               (* references into the store *)
  animationId : option nat;
  startTime : Q;
  lastTime : Q;
  isRunning : bool;
  interactionManager : option InteractionManager.t;
  dpr : Q
}.

(** What a method call evaluates to: [return this], or nothing. *)
Inductive Completion : Type := ReturnThis | ReturnUndefined.

(** Calls the engine makes on the surface and on its effects. *)
Inductive Call : Type :=
| CallClear
| CallInit (r : nat)
| CallUpdate (r : nat) (time deltaTime : Q)
| CallRender (r : nat)
| CallResize (r : nat) (w h : Q)
| CallDestroy (r : nat).

(** The page an engine lives in: the environment of the effects, the
    store of effect objects, the frame scheduler
    ([requestAnimationFrame] ids handed out and callbacks pending), the
    function objects created so far and those listening to the window's
    [resize] event, and the calls made by the engine (oldest first). *)
Record Page (E : Type) : Type := mkPage {
  env : Env;
  heap : gmap nat E;
  rafNext : nat;
  rafPending : list nat;
  closureNext : nat;
  resizeListeners : list nat;
  calls : list Call
}.
Arguments mkPage {E}.
Arguments env {E}.
Arguments heap {E}.
Arguments rafNext {E}.
Arguments rafPending {E}.
Arguments closureNext {E}.
Arguments resizeListeners {E}.
Arguments calls {E}.

Section Engine.
Context `{Host} {E : Type} `{Effect.t E}.

Definition W (A : Type) : Type := State (Page E) A.

Definition inEnv {A} (c : M A) : W A :=
  fun pg =>
    let (a, e') := c (env pg) in
    (a, mkPage e' (heap pg) (rafNext pg) (rafPending pg)
               (closureNext pg) (resizeListeners pg) (calls pg)).

Definition log (c : Call) : W unit :=
  fun pg =>
    (tt, mkPage (env pg) (heap pg) (rafNext pg) (rafPending pg)
                (closureNext pg) (resizeListeners pg) (calls pg ++ [c])).

(** A method call on the effect object behind reference [r]. *)
Definition on_effect (r : nat) (f : E -> M E) : W unit :=
  fun pg =>
    match heap pg !! r with
    | Some obj =>
        let (obj', e') := f obj (env pg) in
        (tt, mkPage e' (<[r := obj']> (heap pg)) (rafNext pg) (rafPending pg)
                    (closureNext pg) (resizeListeners pg) (calls pg))
    | None => (tt, pg)
    end.

Definition peek_effect (r : nat) (f : E -> M unit) : W unit :=
  fun pg =>
    match heap pg !! r with
    | Some obj => inEnv (f obj) pg
    | None => (tt, pg)
    end.

Definition requestAnimationFrame : W nat :=
  fun pg =>
    (rafNext pg,
     mkPage (env pg) (heap pg) (S (rafNext pg)) (rafPending pg ++ [rafNext pg])
            (closureNext pg) (resizeListeners pg) (calls pg)).

Definition without (id : nat) (l : list nat) : list nat :=
  filter (fun k => k <> id) l.

Definition cancelAnimationFrame (id : nat) : W unit :=
  fun pg =>
    (tt, mkPage (env pg) (heap pg) (rafNext pg) (without id (rafPending pg))
                (closureNext pg) (resizeListeners pg) (calls pg)).

(** Evaluating an arrow function expression creates a function object. *)
Definition closure : W nat :=
  fun pg =>
    (closureNext pg,
     mkPage (env pg) (heap pg) (rafNext pg) (rafPending pg)
            (S (closureNext pg)) (resizeListeners pg) (calls pg)).

(** [window.addEventListener('resize', f)]: no duplicate registration
    of one function object. *)
Definition addEventListener (f : nat) : W unit :=
  fun pg =>
    (tt, mkPage (env pg) (heap pg) (rafNext pg) (rafPending pg)
                (closureNext pg)
                (if bool_decide (f ∈ resizeListeners pg)
                 then resizeListeners pg
                 else resizeListeners pg ++ [f])
                (calls pg)).

(** [window.removeEventListener('resize', f)]: removes the function
    object [f] itself, if it is registered. *)
Definition removeEventListener (f : nat) : W unit :=
  fun pg =>
    (tt, mkPage (env pg) (heap pg) (rafNext pg) (rafPending pg)
                (closureNext pg) (without f (resizeListeners pg)) (calls pg)).

Fixpoint for_each (rs : list nat) (body : nat -> W unit) : W unit :=
  match rs with
  | [] => ret tt
  | r :: rs' => body r ;;; for_each rs' body
  end.

Definition with_canvas (v : t) (c : Canvas) : t :=
  mk c (gl v) (effects v) (animationId v) (startTime v) (lastTime v)
     (isRunning v) (interactionManager v) (dpr v).

Definition with_effects (v : t) (l : list nat) : t :=
  mk (canvas v) (gl v) l (animationId v) (startTime v) (lastTime v)
     (isRunning v) (interactionManager v) (dpr v).

Definition with_animationId (v : t) (a : option nat) : t :=
  mk (canvas v) (gl v) (effects v) a (startTime v) (lastTime v)
     (isRunning v) (interactionManager v) (dpr v).

Definition with_lastTime (v : t) (now : Q) : t :=
  mk (canvas v) (gl v) (effects v) (animationId v) (startTime v) now
     (isRunning v) (interactionManager v) (dpr v).

Definition with_isRunning (v : t) (b : bool) : t :=
  mk (canvas v) (gl v) (effects v) (animationId v) (startTime v) (lastTime v)
     b (interactionManager v) (dpr v).

Definition with_interactionManager (v : t) (m : option InteractionManager.t) : t :=
  mk (canvas v) (gl v) (effects v) (animationId v) (startTime v) (lastTime v)
     (isRunning v) m (dpr v).

Definition addEffect (effect : nat) (v : t) : W (Completion * t) :=
  if negb (gl v) then ret (ReturnThis, v)
  else
    log (CallInit effect) ;;;
    on_effect effect Effect.init ;;;
    let v' := with_effects v (effects v ++ [effect]) in
    let w := cwidth (canvas v') / dpr v' in
    let h := cheight (canvas v') / dpr v' in
    log (CallResize effect w h) ;;;
    on_effect effect (Effect.resize w h) ;;;
    ret (ReturnThis, v').

(** [Array.prototype.indexOf] on references. *)
Fixpoint indexOf (r : nat) (l : list nat) : option nat :=
  match l with
  | [] => None
  | r' :: l' => if bool_decide (r' = r) then Some 0%nat
                else option_map S (indexOf r l')
  end.

Definition removeEffect (effect : nat) (v : t) : W (Completion * t) :=
  if negb (gl v) then ret (ReturnThis, v)
  else
    match indexOf effect (effects v) with
    | Some index =>
        log (CallDestroy effect) ;;;
        on_effect effect Effect.destroy ;;;
        ret (ReturnThis, with_effects v (delete index (effects v)))
    | None => ret (ReturnThis, v)
    end.

(** The frame callback. *)
Definition animate (v : t) : W t :=
  if negb (isRunning v) || negb (gl v) then ret v
  else
    id <- requestAnimationFrame ;;
    let v1 := with_animationId v (Some id) in
    now <- inEnv performance_now_call ;;
    let time := (now - startTime v1) / 1000 in
    let deltaTime := (now - lastTime v1) / 1000 in
    let v2 := with_lastTime v1 now in
    log CallClear ;;;
    inEnv (gl_call glClear) ;;;
    for_each (effects v2)
      (fun effect =>
         log (CallUpdate effect time deltaTime) ;;;
         on_effect effect (Effect.update time deltaTime) ;;;
         log (CallRender effect) ;;;
         peek_effect effect Effect.render) ;;;
    ret v2.

Definition start (v : t) : W (Completion * t) :=
  if isRunning v then ret (ReturnThis, v)
  else
    now <- inEnv performance_now_call ;;
    let v1 := mk (canvas v) (gl v) (effects v) (animationId v) now now
                 true (interactionManager v) (dpr v) in
    v2 <- animate v1 ;;
    ret (ReturnThis, v2).

Definition stop (v : t) : W (Completion * t) :=
  if negb (isRunning v) then ret (ReturnThis, v)
  else
    let v1 := with_isRunning v false in
    match animationId v1 with
    | Some id =>
        cancelAnimationFrame id ;;;
        ret (ReturnThis, with_animationId v1 None)
    | None => ret (ReturnThis, v1)
    end.

(** [canvas.width] and [canvas.height] keep the products as they are
    computed; the conversion of the DOM attribute to an integer is not
    modelled, and no property below depends on the stored values. *)
Definition resize (width height : option Q) (v : t) : W (Completion * t) :=
  if negb (gl v) then ret (ReturnThis, v)
  else
    let w := default (clientWidth (canvas v)) width in
    let h := default (clientHeight (canvas v)) height in
    let c := mkCanvas (w * dpr v) (h * dpr v)
                      (clientWidth (canvas v)) (clientHeight (canvas v))
                      (Some w) (Some h) in
    let v' := with_canvas v c in
    inEnv (gl_call (glViewport (cwidth c) (cheight c))) ;;;
    for_each (effects v')
      (fun effect =>
         log (CallResize effect w h) ;;;
         on_effect effect (Effect.resize w h)) ;;;
    ret (ReturnThis, v').

Definition destroy (v : t) : W (Completion * t) :=
  r <- stop v ;;
  let v1 := snd r in
  (if gl v1
   then for_each (effects v1)
          (fun effect =>
             log (CallDestroy effect) ;;;
             on_effect effect Effect.destroy)
   else ret tt) ;;;
  let v2 := with_effects v1 [] in
  let v3 := match interactionManager v2 with
            | Some m =>
                let _ := InteractionManager.destroy m in
                with_interactionManager v2 None
            | None => v2
            end in
  f <- closure ;;
  removeEventListener f ;;;
  ret (ReturnUndefined, v3).

(** The host runs the pending frame callback [id]: the callback leaves
    the list of pending callbacks, then runs. *)
Definition frame (id : nat) (v : t) : W t :=
  fun pg =>
    if bool_decide (id ∈ rafPending pg)
    then (cancelAnimationFrame id ;;; animate v) pg
    else (v, pg).

(** [new VizFX(options)]; [None] when the constructor throws.
    [devicePixelRatio] is [window.devicePixelRatio], [webgl] tells
    whether the canvas hands out a WebGL context. *)
Definition new (o : Options) (devicePixelRatio : option Q) (webgl : bool)
  : W (option t) :=
  match
    match canvas_arg o with
    | Selector found => found
    | Element c => Some c
    | Missing => Some (mkCanvas 300 150 300 150 None None)
    end
  with
  | None => ret None
  | Some c =>
      let d := default (default 1 devicePixelRatio) (opt_dpr o) in
      if negb webgl then ret None
      else
        dateNow <- inEnv Date_now_call ;;
        let v := mk c true [] None 0 0 false
                    (Some (InteractionManager.new dateNow)) d in
        r <- resize (opt_width o) (opt_height o) v ;;
        f <- closure ;;
        addEventListener f ;;;
        ret (Some (snd r))
  end.

(** What happens to an engine after construction: calls of its public
    methods by the client, and frames run by the host. *)
Inductive Op : Type :=
| OpAddEffect (effect : nat)
| OpRemoveEffect (effect : nat)
| OpStart
| OpStop
| OpResize (width height : option Q)
| OpDestroy
| OpFrame (id : nat).

Definition call (op : Op) (v : t) : W t :=
  match op with
  | OpAddEffect effect => r <- addEffect effect v ;; ret (snd r)
  | OpRemoveEffect effect => r <- removeEffect effect v ;; ret (snd r)
  | OpStart => r <- start v ;; ret (snd r)
  | OpStop => r <- stop v ;; ret (snd r)
  | OpResize width height => r <- resize width height v ;; ret (snd r)
  | OpDestroy => r <- destroy v ;; ret (snd r)
  | OpFrame id => frame id v
  end.

Fixpoint run (ops : list Op) (v : t) : W t :=
  match ops with
  | [] => ret v
  | op :: ops' => v' <- call op v ;; run ops' v'
  end.

(** A page on which no engine has been constructed yet: the effect
    objects the client has created, no frame requested, no function
    object listening to the window. *)
Definition blank (e : Env) (objects : gmap nat E) : Page E :=
  mkPage e objects 0 [] 0 [] [].

End Engine.

End VizFX.

(** ** The rescaling of [FloatingParticles.resize] in binary64 arithmetic *)

Module Binary64.

(** [(p.position.x / oldWidth) * width] of [FloatingParticles.resize], on
    IEEE 754 binary64 numbers. *)
Definition rescale (pos oldSize newSize : float) : float :=
  (pos / oldSize * newSize)%float.

(** The logical size of a [FloatingParticles] object and the positions
    of its particles, as binary64 numbers. *)
Record Surface : Type := mkSurface {
  width : float;
  height : float;
  positions : list (float * float)
}.

(** [FloatingParticles.resize] on these: the rescaling branch, taken
    when the prior width and height are positive.  [None] stands for
    the other branch, in which [initParticles] spawns the particles
    anew. *)
Definition resize (w h : float) (s : Surface) : option Surface :=
  if ((0 <? width s) && (0 <? height s))%float
  then Some (mkSurface w h
               (map (fun p => (rescale (fst p) (width s) w,
                               rescale (snd p) (height s) h))
                    (positions s)))
  else None.

End Binary64.

(** ** A concrete host, for running the model

    Every property below is proved for an arbitrary host; this one is used
    to evaluate the definitions on concrete inputs.  Its square root is
    exact on squares of rationals, its trigonometric functions are the
    first terms of their series. *)

Module Sample.

Definition sqrt (q : Q) : Q :=
  Z.sqrt (Qnum q * Zpos (Qden q)) # Qden q.

Definition cos (a : Q) : Q := 1 - a * a / 2 + a * a * a * a / 24.

Definition sin (a : Q) : Q := a - a * a * a / 6 + a * a * a * a * a / 120.

(** 0, 1/8, ..., 7/8, 0, 1/8, ... *)
Definition uniform (k : nat) : Q := Z.of_nat (k mod 8) # 8.

#[export] Instance host : Host := {
  Math_random := uniform;
  Math_cos := cos;
  Math_sin := sin;
  Math_sqrt := sqrt;
  Math_PI := 355 # 113;
  performance_now k := 16 * inject_Z (Z.of_nat k);
  Date_now k := 1700000000000 + inject_Z (Z.of_nat k)
}.

Definition env0 : Env := mkEnv 0 0 0 [].

(** [new ParticleSystem({ count: 3, lifetime: 1.0 })] *)
Definition three : ParticleSystem.Options :=
  ParticleSystem.mkOptions 3 "#ffffff" 3 100 1 (mkVec2 0 (-50)) (mkVec2 0 0) 50 true.

(** [new FloatingParticles({ count: 2, connectionDistance: 150 })] on an
    800 x 600 surface, its particles placed at (0, 50) and (5, 50). *)
Definition pair : FloatingParticles.t :=
  FloatingParticles.mk
    (FloatingParticles.mkOptions 2 "#ffffff" 2 20 150 true)
    [ FloatingParticles.mkParticle (mkVec2 0 50) (mkVec2 (-10) 0) 2;
      FloatingParticles.mkParticle (mkVec2 5 50) (mkVec2 3 4) 3 ]
    (Some 0%nat) (Some 1%nat) (Some 2%nat) (Some 3%nat) 800 600.

#[local] Existing Instance Effect.any.

(** A page with two effect objects created by the client, and an engine
    constructed on it for an 800 x 600 canvas at device pixel ratio 2:
    [new VizFX({ canvas, dpr: 2 })]. *)
Definition objects : gmap nat Effect.Any :=
  {[ 0%nat := Effect.Particles (ParticleSystem.new three);
     1%nat := Effect.Floating
                (FloatingParticles.new
                   (FloatingParticles.mkOptions 2 "#ffffff" 2 20 150 true)) ]}.

Definition page : VizFX.Page Effect.Any := VizFX.blank env0 objects.

Definition canvas : VizFX.Canvas := VizFX.mkCanvas 300 150 800 600 None None.

Definition options : VizFX.Options :=
  VizFX.mkOptions (VizFX.Element canvas) None None (Some 2).

Definition boot : option VizFX.t * VizFX.Page Effect.Any :=
  VizFX.new options (Some 1) true page.

(** The engine after [addEffect] of both objects and [start]. *)
Definition started : VizFX.t * VizFX.Page Effect.Any :=
  match boot with
  | (Some v, pg) =>
      VizFX.run [VizFX.OpAddEffect 0; VizFX.OpAddEffect 1; VizFX.OpStart] v pg
  | (None, pg) => (VizFX.mk canvas false [] None 0 0 false None 1, pg)
  end.

(** [new ParticleSystem({ count: 1, lifetime: 0 })] *)
Definition zeroLifetime : ParticleSystem.Options :=
  ParticleSystem.mkOptions 1 "#ffffff" 3 100 0 (mkVec2 0 (-50)) (mkVec2 0 0) 50 true.

End Sample.

(** * Vocabulary of the properties *)

Module ParticleSystemSpec.
Import ParticleSystem.

(** A particle as [createParticle] returns it at some state of the
    environment. *)
Definition fresh `{Host} (o : Options) (p : Particle) : Prop :=
  exists e : Env, p = fst (createParticle o e).

(** The particle that the loop body of [update] leaves in place of a
    surviving particle [p]: gravity first, then the position with the
    updated velocity. *)
Definition integrated (o : Options) (deltaTime : Q) (p : Particle) : Particle :=
  let v := mkVec2 (x (velocity p) + x (gravity o) * deltaTime)
                  (y (velocity p) + y (gravity o) * deltaTime) in
  mkParticle (mkVec2 (x (position p) + x v * deltaTime)
                     (y (position p) + y v * deltaTime))
             v (life p - deltaTime) (maxLife p) (psize p).

End ParticleSystemSpec.

Module FloatingParticlesSpec.
Import FloatingParticles.

(** A particle's position lies on the logical surface. *)
Definition inside (w h : Q) (p : FloatingParticle) : Prop :=
  (0 <= x (position p) /\ x (position p) <= w)
  /\ (0 <= y (position p) /\ y (position p) <= h).

Definition dist `{Host} (a b : FloatingParticle) : Q :=
  distance (position a) (position b).

(** The pair of indices an edge connects. *)
Definition ends (e : Edge) : nat * nat := (src e, dst e).

End FloatingParticlesSpec.

Module VizFXSpec.
Import VizFX.

(** The scheduler and the window listeners of a page. *)
Definition shell {E : Type} (pg : Page E) : nat * list nat * nat * list nat :=
  (rafNext pg, rafPending pg, closureNext pg, resizeListeners pg).

(** The fields of the engine that the scheduler depends on. *)
Definition control (v : t) : bool * bool * option nat :=
  (gl v, isRunning v, animationId v).

(** An engine constructed on a blank page: its context exists, the one
    function object listening to the window is the one registered by
    the constructor, and at most one frame callback is pending, which
    is then the one the running engine remembers. *)
Definition scheduled {E : Type} (v : t) (pg : Page E) : Prop :=
  gl v = true
  /\ resizeListeners pg = [0%nat]
  /\ (0 < closureNext pg)%nat
  /\ (rafPending pg = []
      \/ (isRunning v = true
          /\ exists id, animationId v = Some id /\ rafPending pg = [id])).



(** The state the effects live in: the effect objects and their
    environment (random numbers drawn, clock readings, the WebGL
    context and the calls it received). *)
Definition world {E : Type} (pg : Page E) : gmap nat E * Env :=
  (heap pg, env pg).

(** The method [f] called on the object behind [r]: it runs in the
    environment and leaves the object in its new state. *)
Definition invoke {E : Type} (f : E -> M E) (st : gmap nat E * Env) (r : nat)
  : gmap nat E * Env :=
  match fst st !! r with
  | Some obj => (<[r := fst (f obj (snd st))]> (fst st), snd (f obj (snd st)))
  | None => st
  end.

(** A method without result called on the object behind [r]. *)
Definition draw {E : Type} (f : E -> M unit) (st : gmap nat E * Env) (r : nat)
  : gmap nat E * Env :=
  match fst st !! r with
  | Some obj => (fst st, snd (f obj (snd st)))
  | None => st
  end.

(** One effect's turn in a frame: its [update], immediately followed by
    its [render], which sees the updated object. *)
Definition update_then_render {E : Type} `{Effect.t E} (time deltaTime : Q)
           (st : gmap nat E * Env) (r : nat) : gmap nat E * Env :=
  draw Effect.render (invoke (Effect.update time deltaTime) st r) r.

(** A single pass over the effects, in the order of the list. *)
Definition interleaved_pass {E : Type} `{Effect.t E} (time deltaTime : Q)
           (rs : list nat) (st : gmap nat E * Env) : gmap nat E * Env :=
  fold_left (update_then_render time deltaTime) rs st.

(** Every effect of the list destroyed, in the order of the list. *)
Definition destroy_pass {E : Type} `{Effect.t E}
           (rs : list nat) (st : gmap nat E * Env) : gmap nat E * Env :=
  fold_left (invoke Effect.destroy) rs st.



End VizFXSpec.

Module ColorSpec.

(** The hexadecimal digit of value [v] (0 .. 15), in upper or lower case. *)
Definition hexChar (upper : bool) (v : Z) : ascii :=
  ascii_of_nat
    (Z.to_nat (if (v <? 10)%Z then 48 + v
               else if upper then 55 + v else 87 + v)%Z).

(** The two-digit hexadecimal numeral of a byte. *)
Definition hex2 (upper : bool) (n : Z) : string :=
  String (hexChar upper (n / 16)) (String (hexChar upper (n mod 16)) EmptyString).

(** [#rrggbb], with or without the number sign. *)
Definition hexColor (hash upper : bool) (red green blue : Z) : string :=
  ((if hash then "#" else "")
   ++ hex2 upper red ++ hex2 upper green ++ hex2 upper blue)%string.

Definition isByte (n : Z) : Prop := (0 <= n <= 255)%Z.

(** A colour component, as the shader receives it. *)
Definition unit_interval (q : Q) : Prop := 0 <= q /\ q <= 1.

End ColorSpec.

Module LifecycleSpec.

(** The calls that delete the programs and buffers among some handles. *)
Definition deletions (programs buffers : list (option nat)) : list GLCall :=
  map glDeleteProgram (omap id programs) ++ map glDeleteBuffer (omap id buffers).

(** The calls that would give back every WebGL resource an effect object
    holds. *)
Definition held (obj : Effect.Any) : list GLCall :=
  match obj with
  | Effect.Particles s =>
      deletions [ParticleSystem.program s] [ParticleSystem.positionBuffer s]
  | Effect.Floating s =>
      deletions [FloatingParticles.particleProgram s; FloatingParticles.lineProgram s]
                [FloatingParticles.particleBuffer s; FloatingParticles.lineBuffer s]
  | Effect.Wave s => deletions [WaveEffect.program s] [WaveEffect.quadBuffer s]
  | Effect.Gradient s =>
      deletions [GradientMesh.program s] [GradientMesh.quadBuffer s]
  end.

(** The call that deletes what a call created. *)
Definition release_of (c : GLCall) : option GLCall :=
  match c with
  | glCreateProgram p => Some (glDeleteProgram p)
  | glCreateBuffer b => Some (glDeleteBuffer b)
  | _ => None
  end.

End LifecycleSpec.

Module ParticleLifeSpec.
Import ParticleSystem.

(** A particle whose maximal life is [l] and whose remaining life does not
    exceed it. *)
Definition fading (l : Q) (p : Particle) : Prop :=
  maxLife p = l /\ life p <= maxLife p.

(** A call that does not run time backwards. *)
Definition forward (op : Op) : Prop :=
  match op with
  | OpUpdate _ deltaTime => 0 <= deltaTime
  | _ => True
  end.

(** Two particles with the same numbers. *)
Definition same_motion (p q : Particle) : Prop :=
  (x (position p) == x (position q) /\ y (position p) == y (position q))
  /\ (x (velocity p) == x (velocity q) /\ y (velocity p) == y (velocity q))
  /\ life p == life q /\ maxLife p = maxLife q /\ psize p = psize q.

(** The alpha that [render] uploads for a particle. *)
Definition alpha_of (s : t) (p : Particle) : Q := nth 3 (vertex s p) 0.

End ParticleLifeSpec.

Module ClipSpec.

(** A point of the clip square [-1, 1] x [-1, 1]. *)
Definition in_clip (cx cy : Q) : Prop :=
  (-1 <= cx /\ cx <= 1) /\ (-1 <= cy /\ cy <= 1).

(** The vertex uploaded for a floating particle lies in the clip square. *)
Definition drawn_in_clip (s : FloatingParticles.t)
           (p : FloatingParticles.FloatingParticle) : Prop :=
  match FloatingParticles.vertex s p with
  | [cx; cy; sz] => in_clip cx cy /\ sz = FloatingParticles.psize p
  | _ => False
  end.

End ClipSpec.

Module InteractionSpec.
Import InteractionManager.

(** What an event says about the button: [Some true] for a press,
    [Some false] for a release, [None] for an event that leaves the
    button alone. *)
Definition button (ev : Event) : option bool :=
  match ev with
  | MouseDown | TouchStart (_ :: _) => Some true
  | MouseUp | MouseLeave | TouchEnd => Some false
  | MouseMove _ _ | TouchMove _ | TouchStart [] => None
  end.

(** The button after a sequence of events, oldest first. *)
Definition button_after (evs : list Event) (b : bool) : bool :=
  fold_left (fun b ev => default b (button ev)) evs b.

End InteractionSpec.

Module SurfaceSpec.
Import FloatingParticles.

(** A call whose arguments are sizes: a [resize] to a width and a height
    that are not negative. *)
Definition sized (op : Op) : Prop :=
  match op with
  | OpResize w h => 0 <= w /\ 0 <= h
  | OpUpdate _ _ | OpRender => True
  end.

(** [Math.random] answers within the unit interval. *)
Definition unit_random `{Host} : Prop :=
  forall k, 0 <= Math_random k /\ Math_random k <= 1.

(** The surface has a size, and every particle lies on it. *)
Definition on_surface (s : t) : Prop :=
  (0 <= width s /\ 0 <= height s)
  /\ Forall (FloatingParticlesSpec.inside (width s) (height s)) (particles s).

End SurfaceSpec.

(** * Properties *)

(** ** State passing *)

Lemma bind_run {S A B} (c : State S A) (k : A -> State S B) (s : S) :
  bind c k s = k (fst (c s)) (snd (c s)).
Proof. unfold bind. destruct (c s); reflexivity. Qed.

Lemma Qlt_bool_iff (a b : Q) : Qlt_bool a b = true <-> a < b.
Proof.
  unfold Qlt_bool. rewrite negb_true_iff, <- not_true_iff_false, Qle_bool_iff.
  split; [apply Qnot_le_lt | apply Qlt_not_le].
Qed.

Lemma Qlt_bool_false_iff (a b : Q) : Qlt_bool a b = false <-> b <= a.
Proof.
  unfold Qlt_bool. rewrite negb_false_iff. apply Qle_bool_iff.
Qed.

(** ** ParticleSystem *)

Module ParticleSystemFacts.
Import ParticleSystem ParticleSystemSpec.

Section WithHost.
Context `{Host}.

Lemma createParticle_life o e : life (fst (createParticle o e)) = lifetime o.
Proof. reflexivity. Qed.

Lemma fresh_life o p : fresh o p -> life p = lifetime o.
Proof. intros [e ->]. apply createParticle_life. Qed.

Lemma emit_length o n : forall e, length (fst (emit o n e)) = n.
Proof.
  induction n as [|n IH]; intros e; simpl; [reflexivity|].
  rewrite !bind_run. simpl. now rewrite IH.
Qed.

Lemma emit_fresh o n : forall e, Forall (fresh o) (fst (emit o n e)).
Proof.
  induction n as [|n IH]; intros e; simpl; [constructor|].
  rewrite !bind_run. simpl. constructor; [now exists e | apply IH].
Qed.

Lemma step_dead o dt p e :
  life p - dt <= 0 -> step o dt p e = createParticle o e.
Proof.
  intros Hd. unfold step. apply Qle_bool_iff in Hd. now rewrite Hd.
Qed.

Lemma step_alive o dt p e :
  ~ life p - dt <= 0 -> step o dt p e = (integrated o dt p, e).
Proof.
  intros Ha. unfold step.
  destruct (Qle_bool (life p - dt) 0) eqn:Hb.
  - apply Qle_bool_iff in Hb. contradiction.
  - reflexivity.
Qed.

Lemma update_loop_length o dt ps :
  forall e, length (fst (update_loop o dt ps e)) = length ps.
Proof.
  induction ps as [|p ps IH]; intros e; simpl; [reflexivity|].
  rewrite !bind_run. simpl. now rewrite IH.
Qed.

(** The particle at index [i] after the loop is the result of the loop
    body on the particle that was at index [i]. *)
Lemma update_loop_lookup o dt ps :
  forall e i p, ps !! i = Some p ->
    exists e_i, fst (update_loop o dt ps e) !! i = Some (fst (step o dt p e_i)).
Proof.
  induction ps as [|q ps IH]; intros e i p Hi; [discriminate|].
  simpl. rewrite !bind_run. simpl. destruct i as [|i]; simpl in *.
  - injection Hi as ->. now exists e.
  - eapply IH, Hi.
Qed.

Lemma update_loop_alive o dt ps :
  0 < lifetime o ->
  forall e, Forall (fun p => 0 < life p) (fst (update_loop o dt ps e)).
Proof.
  intros Hl. induction ps as [|p ps IH]; intros e; simpl; [constructor|].
  rewrite !bind_run. simpl. constructor; [|apply IH].
  destruct (Qlt_le_dec 0 (life p - dt)) as [Ha|Hd].
  - rewrite step_alive by (apply Qlt_not_le, Ha). exact Ha.
  - rewrite step_dead by exact Hd. now rewrite createParticle_life.
Qed.

Lemma update_loop_all_dead o dt ps :
  Forall (fun p => life p - dt <= 0) ps ->
  forall e, Forall (fresh o) (fst (update_loop o dt ps e)).
Proof.
  induction 1 as [|p ps Hp _ IH]; intros e; simpl; [constructor|].
  rewrite !bind_run. simpl. constructor; [|apply IH].
  rewrite step_dead by exact Hp. now exists e.
Qed.

Lemma init_options s e : options (fst (init s e)) = options s.
Proof.
  unfold init, initParticles. rewrite !bind_run. reflexivity.
Qed.

Lemma init_particles s e :
  particles (fst (init s e))
  = fst (emit (options s) (count (options s))
              (snd (createBuffer (snd (createProgram e))))).
Proof.
  unfold init, initParticles. rewrite !bind_run. reflexivity.
Qed.

Lemma init_length s e :
  length (particles (fst (init s e))) = count (options s).
Proof. rewrite init_particles. apply emit_length. Qed.

Lemma setCount_particles n s e :
  particles (fst (setCount n s e))
  = let extra := fst (emit (with_count (options s) n)
                           (n - length (particles s)) e) in
    if (n <? length (particles s ++ extra))%nat
    then firstn n (particles s ++ extra)
    else particles s ++ extra.
Proof. unfold setCount. rewrite bind_run. reflexivity. Qed.

Lemma setCount_length n s e : length (particles (fst (setCount n s e))) = n.
Proof.
  rewrite setCount_particles. cbv zeta.
  set (extra := fst (emit _ _ e)).
  assert (Hx : length extra = (n - length (particles s))%nat)
    by apply emit_length.
  destruct (Nat.ltb_spec n (length (particles s ++ extra))) as [Hlt|Hge].
  - rewrite length_take. lia.
  - rewrite length_app in *. lia.
Qed.

Lemma call_length op s e :
  length (particles (fst (call op s e)))
  = match op with OpSetCount n => n | _ => length (particles s) end.
Proof.
  destruct op; simpl; try reflexivity.
  - unfold update. rewrite bind_run. simpl. apply update_loop_length.
  - rewrite bind_run. reflexivity.
  - apply setCount_length.
Qed.

Lemma run_length ops :
  forall s e,
    length (particles (fst (run ops s e)))
    = lastCount ops (length (particles s)).
Proof.
  induction ops as [|op ops IH]; intros s e; simpl; [reflexivity|].
  rewrite bind_run, IH, call_length. now destruct op.
Qed.

Lemma call_count op s e :
  count (options (fst (call op s e)))
  = match op with OpSetCount n => n | _ => count (options s) end.
Proof.
  destruct op; cbn [call]; try reflexivity.
  - unfold update. now rewrite bind_run.
  - now rewrite bind_run.
  - unfold ret, resize. cbn [fst options]. now destruct (_ && _).
  - unfold setCount. now rewrite bind_run.
Qed.

Lemma run_count ops :
  forall s e,
    count (options (fst (run ops s e))) = lastCount ops (count (options s)).
Proof.
  induction ops as [|op ops IH]; intros s e; simpl; [reflexivity|].
  rewrite bind_run, IH, call_count. now destruct op.
Qed.

Lemma lastCount_app ops1 ops2 c :
  lastCount (ops1 ++ ops2) c = lastCount ops2 (lastCount ops1 c).
Proof.
  revert c. induction ops1 as [|op ops1 IH]; intros c; simpl; [reflexivity|].
  destruct op; apply IH.
Qed.

(** C1 (amended): [update] keeps the number of particles; the particle
    left at each index is, when the decremented life is at most zero,
    a freshly emitted one whose life is the configured lifetime, and
    otherwise the old one with life decremented, velocity advanced by
    gravity * deltaTime and position advanced by the new velocity *
    deltaTime.  When the configured lifetime is positive, no particle
    has life <= 0 afterwards.  With count = 3 and lifetime = 1, one
    update with deltaTime = 1.1 recycles all three particles and leaves
    none with negative life. *)
Theorem update_recycles_or_integrates (s : t) (time deltaTime : Q) (e : Env) :
  let s' := fst (update time deltaTime s e) in
  length (particles s') = length (particles s)
  /\ (forall i p, particles s !! i = Some p ->
        exists p', particles s' !! i = Some p'
          /\ (life p - deltaTime <= 0 ->
                fresh (options s) p' /\ life p' = lifetime (options s))
          /\ (~ life p - deltaTime <= 0 ->
                p' = integrated (options s) deltaTime p))
  /\ (0 < lifetime (options s) ->
        Forall (fun p' => ~ life p' <= 0) (particles s'))
  /\ (forall o e0 e1, count o = 3%nat -> lifetime o == 1 ->
        let s0 := fst (init (new o) e0) in
        let s1 := fst (update time (11#10) s0 e1) in
        Forall (fun p => life p - (11#10) <= 0) (particles s0)
        /\ length (particles s1) = 3%nat
        /\ Forall (fun p' => fresh o p' /\ ~ life p' < 0) (particles s1)).
Proof.
  cbv zeta. unfold update. rewrite bind_run. simpl.
  split; [apply update_loop_length|]. split; [|split].
  - intros i p Hi.
    destruct (update_loop_lookup (options s) deltaTime _ e _ _ Hi) as [ei Hei].
    eexists. split; [exact Hei|]. split.
    + intros Hd. rewrite step_dead by exact Hd.
      split; [now exists ei | apply createParticle_life].
    + intros Ha. now rewrite step_alive by exact Ha.
  - intros Hl.
    eapply List.Forall_impl; [|apply update_loop_alive, Hl].
    intros p Hp. simpl in Hp. apply Qlt_not_le, Hp.
  - intros o e0 e1 Hc Hl.
    assert (Hdead : Forall (fun p => life p - (11#10) <= 0)
                           (particles (fst (init (new o) e0)))).
    { rewrite init_particles. cbn [new options].
      eapply List.Forall_impl; [|apply emit_fresh].
      intros p Hp. simpl in Hp. rewrite (fresh_life _ _ Hp), Hl. discriminate. }
    split; [exact Hdead|]. rewrite bind_run. simpl.
    rewrite init_options. cbn [new options]. split.
    + rewrite update_loop_length, init_length. exact Hc.
    + eapply List.Forall_impl; [|apply update_loop_all_dead, Hdead].
      intros p Hp. simpl in *. split; [exact Hp|].
      rewrite (fresh_life _ _ Hp), Hl. discriminate.
Qed.

(** C3: whatever the client called before [init], on the initialised
    system and after any further sequence of calls of [update],
    [render], [resize], [setEmitterPosition], [setColor] and [setCount],
    the number of particles is the argument of the last [setCount], or
    the constructor count when there was none.  [setCount n] leaves
    exactly [n] particles: when [n] is at least the current length it
    appends freshly emitted particles to the array, and when it is at
    most the current length it keeps the first [n]. *)
Theorem particle_count_invariant
        (o : Options) (before after : list Op) (e : Env) :
  length (particles
            (fst ((s0 <- run before (new o) ;;
                   s1 <- init s0 ;;
                   run after s1) e)))
  = lastCount (before ++ after) (count o)
  /\ (forall n s e',
        let s' := fst (setCount n s e') in
        length (particles s') = n
        /\ ((length (particles s) <= n)%nat ->
              exists extra,
                particles s' = particles s ++ extra
                /\ length extra = (n - length (particles s))%nat
                /\ Forall (fresh (options s')) extra)
        /\ ((n <= length (particles s))%nat ->
              particles s' = firstn n (particles s))).
Proof.
  split.
  - rewrite !bind_run, run_length, init_length, run_count, lastCount_app.
    reflexivity.
  - intros n s e'. cbv zeta. split; [apply setCount_length|].
    rewrite setCount_particles. cbv zeta.
    set (extra := fst (emit _ _ e')).
    assert (Hx : length extra = (n - length (particles s))%nat)
      by apply emit_length.
    split.
    + intros Hle. exists extra.
      destruct (Nat.ltb_spec n (length (particles s ++ extra))) as [Hlt|Hge].
      * rewrite length_app in Hlt. lia.
      * split; [reflexivity|]. split; [exact Hx|].
        unfold setCount. rewrite bind_run. simpl. apply emit_fresh.
    + intros Hge.
      assert (Hnil : extra = []).
      { destruct extra; [reflexivity|]. simpl in Hx. lia. }
      rewrite Hnil, app_nil_r.
      destruct (Nat.ltb_spec n (length (particles s))) as [Hlt|Hle].
      * reflexivity.
      * symmetry. apply firstn_all2. lia.
Qed.

End WithHost.

(** C10: [resize] recenters the emitter whenever it is at the origin
    when the call is made, whatever happened before; an emitter that is
    not at the origin is left alone.  In particular an emitter put at the
    origin with [setEmitterPosition(0, 0)], even after an earlier resize,
    is moved to the centre by the next resize. *)
Theorem resize_recenters_origin_emitter (w h : Q) (s : t) :
  let ep := emitterPosition (options s) in
  (x ep == 0 /\ y ep == 0 ->
     emitterPosition (options (resize w h s)) = mkVec2 (w / 2) (h / 2))
  /\ (~ (x ep == 0 /\ y ep == 0) ->
       emitterPosition (options (resize w h s)) = ep)
  /\ (forall w0 h0,
       emitterPosition
         (options (resize w h (setEmitterPosition 0 0 (resize w0 h0 s))))
       = mkVec2 (w / 2) (h / 2)).
Proof.
  cbv zeta. unfold resize. split; [|split].
  - intros [Hx Hy]. apply Qeq_bool_iff in Hx, Hy. now rewrite Hx, Hy.
  - intros Hn. simpl.
    destruct (Qeq_bool (x (emitterPosition (options s))) 0) eqn:Hx;
      destruct (Qeq_bool (y (emitterPosition (options s))) 0) eqn:Hy;
      try reflexivity.
    exfalso. apply Hn. split; now apply Qeq_bool_iff.
  - intros w0 h0. reflexivity.
Qed.

#[local] Existing Instance Sample.host.

(** The scenario on the sample host: the configured lifetime is positive
    and no particle is dead after the update. *)
Lemma update_recycles_or_integrates_witness :
  let s := fst (init (new Sample.three) Sample.env0) in
  0 < lifetime (options s)
  /\ Forall (fun p' => ~ life p' <= 0)
            (particles (fst (update 0 (11#10) s Sample.env0))).
Proof.
  cbv zeta. split; [reflexivity|].
  apply (update_recycles_or_integrates
           (fst (init (new Sample.three) Sample.env0)) 0 (11#10) Sample.env0).
  reflexivity.
Defined.

(** C1, as stated, fails when the configured lifetime is zero: the
    recycled particle is born with life 0. *)
Lemma update_leaves_dead_particle :
  let s := fst (init (new Sample.zeroLifetime) Sample.env0) in
  let s' := fst (update 0 (1#60) s Sample.env0) in
  0 < 1#60 /\ exists p, particles s' !! 0%nat = Some p /\ life p <= 0.
Proof.
  cbv zeta. split; [reflexivity|].
  eexists. split; [vm_compute; reflexivity|]. vm_compute. discriminate.
Qed.

Lemma particle_count_invariant_witness :
  let s := fst (init (new Sample.three) Sample.env0) in
  (length (particles s) <= 5)%nat
  /\ exists extra,
       particles (fst (setCount 5 s Sample.env0)) = particles s ++ extra
       /\ length extra = (5 - length (particles s))%nat.
Proof.
  cbv zeta. split; [vm_compute; lia|].
  destruct (proj2 (particle_count_invariant Sample.three [] [] Sample.env0)
                  5%nat (fst (init (new Sample.three) Sample.env0)) Sample.env0)
    as (_ & Hgrow & _).
  destruct Hgrow as (extra & Hp & Hl & _); [vm_compute; lia|].
  exists extra. split; assumption.
Defined.

Lemma resize_recenters_origin_emitter_witness :
  emitterPosition (options (resize 800 600 (new ParticleSystem.defaults)))
  = mkVec2 (800 / 2) (600 / 2).
Proof.
  apply (proj1 (resize_recenters_origin_emitter
                  800 600 (new ParticleSystem.defaults))).
  split; reflexivity.
Defined.

End ParticleSystemFacts.

(** ** FloatingParticles *)

Module FloatingParticlesFacts.
Import FloatingParticles FloatingParticlesSpec.

Lemma wrap_below limit c : 0 <= limit -> c < 0 -> wrap limit c = limit.
Proof.
  intros Hl Hc. unfold wrap.
  apply Qlt_bool_iff in Hc. rewrite Hc.
  destruct (Qlt_bool limit limit) eqn:Hb; [|reflexivity].
  apply Qlt_bool_iff in Hb. lra.
Qed.

Lemma wrap_above limit c : 0 <= limit -> limit < c -> wrap limit c = 0.
Proof.
  intros Hl Hc. unfold wrap.
  destruct (Qlt_bool c 0) eqn:Hb.
  - apply Qlt_bool_iff in Hb. lra.
  - apply Qlt_bool_iff in Hc. now rewrite Hc.
Qed.

Lemma wrap_within limit c : 0 <= c -> c <= limit -> wrap limit c = c.
Proof.
  intros H0 Hl. unfold wrap.
  destruct (Qlt_bool c 0) eqn:Hb.
  - apply Qlt_bool_iff in Hb. lra.
  - destruct (Qlt_bool limit c) eqn:Hb'; [|reflexivity].
    apply Qlt_bool_iff in Hb'. lra.
Qed.

Lemma wrap_range limit c : 0 <= limit -> 0 <= wrap limit c /\ wrap limit c <= limit.
Proof.
  intros Hl.
  destruct (Qlt_le_dec c 0) as [Hneg|Hpos].
  - rewrite wrap_below by assumption. lra.
  - destruct (Qlt_le_dec limit c) as [Hbig|Hsmall].
    + rewrite wrap_above by assumption. lra.
    + rewrite wrap_within by assumption. lra.
Qed.

Lemma move_inside w h dt p : 0 <= w -> 0 <= h -> inside w h (move w h dt p).
Proof.
  intros Hw Hh. unfold inside, move. simpl.
  split; apply wrap_range; assumption.
Qed.

(** C4: when every particle lies on the logical surface, after [update]
    every particle lies on it again.  Velocities and sizes are unchanged.
    Each coordinate is handled on its own: a coordinate whose integrated
    value is below 0 becomes the size of the surface along that axis, one
    above that size becomes 0, and one within the range is the
    integrated value itself (so a particle that leaves through one edge
    comes back at the opposite edge, at the integrated value of its
    other coordinate). *)
Theorem update_wraps_toroidally (s : t) (time deltaTime : Q) :
  Forall (inside (width s) (height s)) (particles s) ->
  let s' := update time deltaTime s in
  width s' = width s /\ height s' = height s
  /\ Forall (inside (width s) (height s)) (particles s')
  /\ forall i p, particles s !! i = Some p ->
       exists p', particles s' !! i = Some p'
         /\ velocity p' = velocity p /\ psize p' = psize p
         /\ let px := x (position p) + x (velocity p) * deltaTime in
            let py := y (position p) + y (velocity p) * deltaTime in
            (px < 0 -> x (position p') = width s)
            /\ (width s < px -> x (position p') = 0)
            /\ (0 <= px /\ px <= width s -> x (position p') = px)
            /\ (py < 0 -> y (position p') = height s)
            /\ (height s < py -> y (position p') = 0)
            /\ (0 <= py /\ py <= height s -> y (position p') = py).
Proof.
  intros Hin. cbv zeta. unfold update. simpl.
  split; [reflexivity|]. split; [reflexivity|].
  assert (Hdim : particles s <> [] -> 0 <= width s /\ 0 <= height s).
  { destruct Hin as [|p ps [[] []] _]; [congruence|]. intros _. lra. }
  split.
  - destruct (particles s) as [|p ps] eqn:Hps; [constructor|].
    destruct Hdim as [Hw Hh]; [discriminate|].
    apply List.Forall_forall. intros q Hq.
    apply List.in_map_iff in Hq as (q0 & <- & _).
    now apply move_inside.
  - intros i p Hi.
    destruct Hdim as [Hw Hh]; [intros Hnil; now rewrite Hnil in Hi|].
    exists (move (width s) (height s) deltaTime p).
    split; [now rewrite list_lookup_fmap, Hi|].
    split; [reflexivity|]. split; [reflexivity|]. simpl.
    repeat split; intros;
      first [ now apply wrap_below | now apply wrap_above
            | apply wrap_within; tauto ].
Qed.

Section WithHost.
Context `{Host}.

(** The edges found by the inner loop at [i], started at index [j]. *)
Lemma inner_In m i a :
  forall rest j e,
    In e (inner m i a j rest) <->
    src e = i /\ p1 e = a
    /\ exists k, dst e = (j + k)%nat /\ rest !! k = Some (p2 e)
         /\ dist a (p2 e) < m /\ alpha e = 1 - dist a (p2 e) / m.
Proof.
  induction rest as [|b rest IH]; intros j e; simpl.
  - split; [tauto|]. intros (_ & _ & k & _ & Hk & _). discriminate.
  - rewrite List.in_app_iff, IH. split.
    + intros [Hin | (Hs & Hp & k & Hd & Hk & Hlt & Ha)].
      * destruct (Qlt_bool _ m) eqn:Hb; [|contradiction].
        destruct Hin as [<-|[]]. simpl.
        split; [reflexivity|]. split; [reflexivity|].
        exists 0%nat. rewrite Nat.add_0_r.
        split; [reflexivity|]. split; [reflexivity|].
        split; [now apply Qlt_bool_iff | reflexivity].
      * split; [exact Hs|]. split; [exact Hp|].
        exists (S k). split; [lia|]. now split.
    + intros (Hs & Hp & k & Hd & Hk & Hlt & Ha).
      destruct k as [|k].
      * left. simpl in Hk. injection Hk as Hb.
        destruct e as [es ed ea eb eal]. simpl in *. subst.
        apply Qlt_bool_iff in Hlt. unfold dist in Hlt. rewrite Hlt.
        left. f_equal. lia.
      * right. split; [exact Hs|]. split; [exact Hp|].
        exists k. split; [lia|]. now split.
Qed.

Lemma outer_In m :
  forall ps i e,
    In e (outer m i ps) <->
    exists k k', src e = (i + k)%nat /\ dst e = (S (i + k) + k')%nat
      /\ ps !! k = Some (p1 e) /\ ps !! (S k + k')%nat = Some (p2 e)
      /\ dist (p1 e) (p2 e) < m /\ alpha e = 1 - dist (p1 e) (p2 e) / m.
Proof.
  induction ps as [|a ps IH]; intros i e; simpl.
  - split; [tauto|]. intros (k & k' & _ & _ & Hk & _). discriminate.
  - rewrite List.in_app_iff, inner_In, IH. split.
    + intros [(Hs & Hp & k' & Hd & Hk & Hlt & Ha)
             | (k & k' & Hs & Hd & Hk & Hk' & Hlt & Ha)].
      * exists 0%nat, k'. rewrite Nat.add_0_r. subst a.
        repeat split; try assumption; lia.
      * exists (S k), k'. repeat split; try assumption; lia.
    + intros (k & k' & Hs & Hd & Hk & Hk' & Hlt & Ha).
      destruct k as [|k]; simpl in Hk, Hk'.
      * left. injection Hk as ->. rewrite Nat.add_0_r in *.
        split; [exact Hs|]. split; [reflexivity|].
        exists k'. now repeat split.
      * right. exists k, k'. repeat split; try assumption; lia.
Qed.

Lemma inner_ends m i a :
  forall rest j, Forall (fun e => src e = i /\ (j <= dst e)%nat)
                        (inner m i a j rest).
Proof.
  intros rest j. apply List.Forall_forall. intros e He.
  apply inner_In in He as (Hs & _ & k & Hd & _). split; [exact Hs | lia].
Qed.

Lemma inner_NoDup m i a :
  forall rest j, NoDup (map ends (inner m i a j rest)).
Proof.
  induction rest as [|b rest IH]; intros j; simpl; [constructor|].
  assert (Hrest : (i, j) ∉ map ends (inner m i a (S j) rest)).
  { intros Hin. apply list_elem_of_In, List.in_map_iff in Hin as (e & He & Hin).
    pose proof (inner_ends m i a rest (S j)) as Hall.
    rewrite List.Forall_forall in Hall. apply Hall in Hin.
    unfold ends in He. injection He as _ Hd. lia. }
  destruct (Qlt_bool _ m); simpl; [|apply IH].
  constructor; [exact Hrest | apply IH].
Qed.

Lemma outer_NoDup m :
  forall ps i, NoDup (map ends (outer m i ps)).
Proof.
  induction ps as [|a ps IH]; intros i; simpl; [constructor|].
  rewrite map_app. apply NoDup_app. split; [apply inner_NoDup|].
  split; [|apply IH].
  intros [es ed] Hin Hout.
  apply list_elem_of_In, List.in_map_iff in Hin as (e & He & Hin).
  apply list_elem_of_In, List.in_map_iff in Hout as (e' & He' & Hout).
  apply inner_In in Hin as (Hs & _).
  apply outer_In in Hout as (k & k' & Hs' & _).
  unfold ends in He, He'. injection He as <- _. injection He' as He' _. lia.
Qed.

Lemma connections_In (s : t) (e : Edge) :
  In e (connections s) <->
  (src e < dst e)%nat
  /\ particles s !! src e = Some (p1 e)
  /\ particles s !! dst e = Some (p2 e)
  /\ dist (p1 e) (p2 e) < connectionDistance (options s)
  /\ alpha e = 1 - dist (p1 e) (p2 e) / connectionDistance (options s).
Proof.
  unfold connections. rewrite outer_In. split.
  - intros (k & k' & Hs & Hd & Hk & Hk' & Hlt & Ha). simpl in Hs, Hd.
    rewrite Hs, Hd. repeat split; try assumption. lia.
  - intros (Hlt & Hk & Hk' & Hd & Ha).
    exists (src e), (dst e - S (src e))%nat. simpl.
    replace (S (src e + (dst e - S (src e))))%nat with (dst e) by lia.
    now repeat split.
Qed.

Lemma scenario_distance :
  distance (mkVec2 0 50) (mkVec2 5 50) = Math_sqrt 25.
Proof. reflexivity. Qed.

(** C2: the connections found by [renderConnections] are exactly the
    pairs of particles (lower index first) whose distance is strictly
    below [connectionDistance], each with alpha
    1 - distance / connectionDistance, and no pair is connected twice.
    With two particles at (0, 50) and (5, 50) and connectionDistance
    150 (the square root of 25 being 5) there is exactly one edge, with
    alpha 1 - 5/150. *)
Theorem connections_iff_within_distance (s : t) :
  let m := connectionDistance (options s) in
  (forall i j a b,
     (i < j)%nat -> particles s !! i = Some a -> particles s !! j = Some b ->
     (dist a b < m <-> exists e, In e (connections s) /\ ends e = (i, j)))
  /\ (forall e, In e (connections s) ->
        (src e < dst e)%nat
        /\ particles s !! src e = Some (p1 e)
        /\ particles s !! dst e = Some (p2 e)
        /\ alpha e = 1 - dist (p1 e) (p2 e) / m)
  /\ NoDup (map ends (connections s))
  /\ (Math_sqrt 25 == 5 ->
      forall a b,
        particles s = [a; b] ->
        position a = mkVec2 0 50 -> position b = mkVec2 5 50 ->
        m = 150 ->
        exists e, connections s = [e] /\ ends e = (0%nat, 1%nat)
                  /\ alpha e == 1 - 5 / 150).
Proof.
  cbv zeta. split; [|split; [|split]].
  - intros i j a b Hij Hi Hj. split.
    + intros Hlt.
      exists (mkEdge i j a b (1 - dist a b / connectionDistance (options s))).
      split; [|reflexivity]. apply connections_In. simpl. now repeat split.
    + intros (e & Hin & He). apply connections_In in Hin.
      destruct Hin as (_ & Hi' & Hj' & Hlt & _).
      unfold ends in He. injection He as Hs Hd. rewrite Hs in Hi'. rewrite Hd in Hj'.
      rewrite Hi in Hi'. rewrite Hj in Hj'.
      injection Hi' as ->. injection Hj' as ->. exact Hlt.
  - intros e Hin. apply connections_In in Hin. tauto.
  - apply outer_NoDup.
  - intros Hsqrt a b Hps Ha Hb Hm.
    unfold connections. rewrite Hps, Hm. cbn [outer inner app].
    rewrite Ha, Hb, scenario_distance.
    assert (Hlt : Qlt_bool (Math_sqrt 25) 150 = true).
    { apply Qlt_bool_iff. rewrite Hsqrt. reflexivity. }
    rewrite Hlt. eexists. split; [reflexivity|]. split; [reflexivity|].
    simpl. rewrite Hsqrt. reflexivity.
Qed.

End WithHost.

#[local] Existing Instance Sample.host.

Lemma update_wraps_toroidally_witness :
  Forall (inside 800 600) (particles Sample.pair)
  /\ Forall (inside 800 600) (particles (update 0 1 Sample.pair)).
Proof.
  assert (Hin : Forall (inside (width Sample.pair) (height Sample.pair))
                       (particles Sample.pair)).
  { repeat constructor; simpl; lra. }
  split; [exact Hin|].
  apply (update_wraps_toroidally Sample.pair 0 1 Hin).
Defined.

Lemma connections_iff_within_distance_witness :
  Math_sqrt 25 == 5
  /\ exists e, connections Sample.pair = [e] /\ ends e = (0%nat, 1%nat)
               /\ alpha e == 1 - 5 / 150.
Proof.
  assert (Hsqrt : Math_sqrt 25 == 5) by reflexivity.
  split; [exact Hsqrt|].
  destruct (connections_iff_within_distance Sample.pair) as (_ & _ & _ & Hone).
  eapply Hone; [exact Hsqrt | reflexivity | reflexivity | reflexivity | reflexivity].
Defined.

End FloatingParticlesFacts.

(** ** Rounding *)

Module Binary64Facts.

(** In binary64 arithmetic, rescaling the coordinate 1 from a surface of
    size 49 to a surface of the same size does not give back 1: the
    rounded quotient 1/49 times 49 is 0.9999999999999999. *)
Lemma rescale_drifts :
  (Binary64.rescale 1 49 49 =? 1)%float = false
  /\ (Binary64.rescale 1 49 49 <? 1)%float = true.
Proof. split; vm_compute; reflexivity. Qed.

End Binary64Facts.

(** ** The engine *)

Module VizFXFacts.
Import VizFX VizFXSpec.

Section Engine.
Context `{Host} {E : Type} `{Effect.t E}.

Create Rewrite HintDb shell.

(** *** What the helpers leave alone *)

Lemma inEnv_shell {A} (c : M A) (pg : Page E) :
  shell (snd (inEnv c pg)) = shell pg
  /\ calls (snd (inEnv c pg)) = calls pg
  /\ heap (snd (inEnv c pg)) = heap pg.
Proof. unfold inEnv. destruct (c (env pg)). now repeat split. Qed.

Lemma on_effect_shell r f (pg : Page E) :
  shell (snd (on_effect r f pg)) = shell pg
  /\ calls (snd (on_effect r f pg)) = calls pg.
Proof.
  unfold on_effect. destruct (heap pg !! r) as [obj|]; [|now split].
  destruct (f obj (env pg)). now split.
Qed.

Lemma peek_effect_shell r f (pg : Page E) :
  shell (snd (peek_effect r f pg)) = shell pg
  /\ calls (snd (peek_effect r f pg)) = calls pg
  /\ heap (snd (peek_effect r f pg)) = heap pg.
Proof.
  unfold peek_effect. destruct (heap pg !! r) as [obj|]; [|now repeat split].
  apply inEnv_shell.
Qed.

Lemma for_each_shell rs (body : nat -> State (Page E) unit) :
  (forall r pg, shell (snd (body r pg)) = shell pg) ->
  forall pg, shell (snd (for_each rs body pg)) = shell pg.
Proof.
  intros Hbody. induction rs as [|r rs IH]; intros pg; simpl; [reflexivity|].
  rewrite bind_run, IH. apply Hbody.
Qed.

(** The calls logged by a loop whose body logs [trace r] for [r]. *)
Lemma for_each_calls rs (body : nat -> State (Page E) unit)
      (trace : nat -> list Call) :
  (forall r pg, calls (snd (body r pg)) = calls pg ++ trace r) ->
  forall pg,
    calls (snd (for_each rs body pg)) = calls pg ++ flat_map trace rs.
Proof.
  intros Hbody. induction rs as [|r rs IH]; intros pg; simpl.
  - now rewrite app_nil_r.
  - rewrite bind_run, IH, Hbody. now rewrite <- app_assoc.
Qed.

Lemma frame_body_calls time deltaTime r (pg : Page E) :
  calls (snd ((log (CallUpdate r time deltaTime) ;;;
               on_effect r (Effect.update time deltaTime) ;;;
               log (CallRender r) ;;;
               peek_effect r Effect.render) pg))
  = calls pg ++ [CallUpdate r time deltaTime; CallRender r].
Proof.
  rewrite !bind_run.
  rewrite (proj1 (proj2 (peek_effect_shell _ _ _))). simpl.
  rewrite (proj2 (on_effect_shell _ _ _)). simpl.
  now rewrite <- app_assoc.
Qed.

Lemma frame_fired id v (pg : Page E) :
  id ∈ rafPending pg ->
  frame id v pg = animate v (snd (cancelAnimationFrame id pg)).
Proof.
  intros Hid. unfold frame.
  rewrite bool_decide_eq_true_2 by exact Hid. now rewrite bind_run.
Qed.

(** *** What the helpers do to the effects and their environment *)

Lemma world_ret {A} (a : A) (pg : Page E) : world (snd (ret a pg)) = world pg.
Proof. reflexivity. Qed.

Lemma world_log c (pg : Page E) : world (snd (log c pg)) = world pg.
Proof. reflexivity. Qed.

Lemma world_inEnv {A} (c : M A) (pg : Page E) :
  world (snd (inEnv c pg)) = (heap pg, snd (c (env pg))).
Proof. unfold inEnv. now destruct (c (env pg)). Qed.

Lemma world_on_effect r f (pg : Page E) :
  world (snd (on_effect r f pg)) = invoke f (world pg) r.
Proof.
  unfold on_effect, invoke, world. cbn [fst snd].
  destruct (heap pg !! r) as [obj|]; [|reflexivity].
  now destruct (f obj (env pg)).
Qed.

Lemma world_peek_effect r f (pg : Page E) :
  world (snd (peek_effect r f pg)) = draw f (world pg) r.
Proof.
  unfold peek_effect, draw, world. cbn [fst snd].
  destruct (heap pg !! r) as [obj|]; [|reflexivity].
  apply world_inEnv.
Qed.

Lemma world_requestAnimationFrame (pg : Page E) :
  world (snd (requestAnimationFrame pg)) = world pg.
Proof. reflexivity. Qed.

Lemma world_cancelAnimationFrame id (pg : Page E) :
  world (snd (cancelAnimationFrame id pg)) = world pg.
Proof. reflexivity. Qed.

(** The state left by a loop whose body does [step] to it. *)
Lemma for_each_world rs (body : nat -> State (Page E) unit)
      (step : gmap nat E * Env -> nat -> gmap nat E * Env) :
  (forall r pg, world (snd (body r pg)) = step (world pg) r) ->
  forall pg, world (snd (for_each rs body pg)) = fold_left step rs (world pg).
Proof.
  intros Hbody. induction rs as [|r rs IH]; intros pg; simpl; [reflexivity|].
  now rewrite bind_run, IH, Hbody.
Qed.

Lemma frame_body_world time deltaTime r (pg : Page E) :
  world (snd ((log (CallUpdate r time deltaTime) ;;;
               on_effect r (Effect.update time deltaTime) ;;;
               log (CallRender r) ;;;
               peek_effect r Effect.render) pg))
  = update_then_render time deltaTime (world pg) r.
Proof.
  rewrite !bind_run. unfold update_then_render.
  now rewrite world_peek_effect, world_log, world_on_effect, world_log.
Qed.

(** The frame callback of a running engine, on the effects and their
    environment: one clock reading, the clear, then the pass. *)
Lemma animate_world v (pg : Page E) :
  isRunning v = true -> gl v = true ->
  let now := performance_now (clockReads (env pg)) in
  world (snd (animate v pg))
  = interleaved_pass ((now - startTime v) / 1000) ((now - lastTime v) / 1000)
      (effects v)
      (heap pg, snd (gl_call glClear (snd (performance_now_call (env pg))))).
Proof.
  intros Hrun Hgl. cbv zeta. unfold animate. rewrite Hrun, Hgl.
  cbn [negb orb]. rewrite !bind_run.
  unfold ret at 1. cbn [snd].
  erewrite for_each_world by (intros; apply frame_body_world).
  unfold interleaved_pass. reflexivity.
Qed.

(** C5: a frame of a running engine reads the clock once and clears the
    surface, which is the first call the WebGL context receives in the
    frame; then it visits the effects in registration order, in a
    single pass: each effect's [update], with the time and deltaTime of
    that clock reading, is immediately followed by its [render], which
    sees the updated object, before the next effect is touched.  This
    is stated on the effect objects and their environment, and on the
    order of the calls.  Registration order is the order of the
    [addEffect] calls: each appends its effect to the list. *)
Theorem frame_interleaves_update_and_render (id : nat) (v : t) (pg : Page E) :
  id ∈ rafPending pg -> isRunning v = true -> gl v = true ->
  let now := performance_now (clockReads (env pg)) in
  let time := (now - startTime v) / 1000 in
  let deltaTime := (now - lastTime v) / 1000 in
  let cleared := snd (gl_call glClear (snd (performance_now_call (env pg)))) in
  world (snd (frame id v pg))
  = interleaved_pass time deltaTime (effects v) (heap pg, cleared)
  /\ glLog cleared = glLog (env pg) ++ [glClear]
  /\ calls (snd (frame id v pg))
     = calls pg
       ++ CallClear
          :: flat_map (fun r => [CallUpdate r time deltaTime; CallRender r])
                      (effects v)
  /\ (forall effect,
        effects (snd (fst (addEffect effect v pg))) = effects v ++ [effect]).
Proof.
  intros Hid Hrun Hgl. cbv zeta.
  split; [|split; [reflexivity|split]].
  - rewrite frame_fired by exact Hid.
    now rewrite animate_world.
  - unfold frame.
    rewrite bool_decide_eq_true_2 by exact Hid.
    rewrite bind_run. unfold animate. rewrite Hrun, Hgl. cbn [negb orb].
    rewrite !bind_run.
    unfold ret at 1. cbn [snd].
    erewrite for_each_calls by (intros; apply frame_body_calls).
    cbn. now rewrite <- app_assoc.
  - intros r. unfold addEffect. rewrite Hgl. cbn [negb].
    now rewrite !bind_run.
Qed.

(** *** Scheduler and listeners *)

Lemma without_fresh (n : nat) (l : list nat) :
  Forall (fun k => (k < n)%nat) l -> without n l = l.
Proof.
  unfold without. induction 1 as [|k l Hk _ IH]; [reflexivity|].
  rewrite filter_cons_True by lia. now rewrite IH.
Qed.

Lemma without_single (n : nat) : without n [n] = [].
Proof. unfold without. now rewrite filter_cons_False by tauto. Qed.

Lemma indexOf_None r l : r ∉ l -> indexOf r l = None.
Proof.
  induction l as [|k l IH]; intros Hr; simpl; [reflexivity|].
  apply not_elem_of_cons in Hr as [Hne Hr].
  rewrite bool_decide_eq_false_2 by congruence. now rewrite IH.
Qed.

Lemma shell_ret {A} (a : A) (pg : Page E) : shell (snd (ret a pg)) = shell pg.
Proof. reflexivity. Qed.

Lemma shell_log c (pg : Page E) : shell (snd (log c pg)) = shell pg.
Proof. reflexivity. Qed.

Lemma shell_inEnv {A} (c : M A) (pg : Page E) : shell (snd (inEnv c pg)) = shell pg.
Proof. apply inEnv_shell. Qed.

Lemma shell_on_effect r f (pg : Page E) : shell (snd (on_effect r f pg)) = shell pg.
Proof. apply on_effect_shell. Qed.

Lemma shell_peek_effect r f (pg : Page E) : shell (snd (peek_effect r f pg)) = shell pg.
Proof. apply peek_effect_shell. Qed.

(** Loops over the effects, as the engine writes them, do not touch
    the scheduler or the listeners. *)
Lemma shell_resize_loop w h rs (pg : Page E) :
  shell (snd (for_each rs
                (fun effect =>
                   log (CallResize effect w h) ;;;
                   on_effect effect (Effect.resize w h)) pg))
  = shell pg.
Proof.
  apply for_each_shell. intros r pg'. rewrite bind_run.
  now rewrite shell_on_effect.
Qed.

Lemma shell_destroy_loop rs (pg : Page E) :
  shell (snd (for_each rs
                (fun effect =>
                   log (CallDestroy effect) ;;;
                   on_effect effect Effect.destroy) pg))
  = shell pg.
Proof.
  apply for_each_shell. intros r pg'. rewrite bind_run.
  now rewrite shell_on_effect.
Qed.

Lemma shell_frame_loop time deltaTime rs (pg : Page E) :
  shell (snd (for_each rs
                (fun effect =>
                   log (CallUpdate effect time deltaTime) ;;;
                   on_effect effect (Effect.update time deltaTime) ;;;
                   log (CallRender effect) ;;;
                   peek_effect effect Effect.render) pg))
  = shell pg.
Proof.
  apply for_each_shell. intros r pg'. rewrite !bind_run.
  now rewrite shell_peek_effect, shell_log, shell_on_effect.
Qed.

Lemma shell_requestAnimationFrame (pg : Page E) :
  shell (snd (requestAnimationFrame pg))
  = (S (rafNext pg), rafPending pg ++ [rafNext pg],
     closureNext pg, resizeListeners pg).
Proof. reflexivity. Qed.

Lemma shell_cancelAnimationFrame id (pg : Page E) :
  shell (snd (cancelAnimationFrame id pg))
  = (rafNext pg, without id (rafPending pg),
     closureNext pg, resizeListeners pg).
Proof. reflexivity. Qed.

Lemma shell_closure (pg : Page E) :
  shell (snd (closure pg))
  = (rafNext pg, rafPending pg, S (closureNext pg), resizeListeners pg).
Proof. reflexivity. Qed.

Lemma shell_removeEventListener f (pg : Page E) :
  shell (snd (removeEventListener f pg))
  = (rafNext pg, rafPending pg, closureNext pg,
     without f (resizeListeners pg)).
Proof. reflexivity. Qed.

#[local] Hint Rewrite @shell_ret @shell_log @shell_inEnv @shell_on_effect
     @shell_peek_effect @shell_resize_loop @shell_destroy_loop
     @shell_frame_loop : shell.

Lemma shell_addEventListener f (pg : Page E) :
  shell (snd (addEventListener f pg))
  = (rafNext pg, rafPending pg, closureNext pg,
     if bool_decide (f ∈ resizeListeners pg)
     then resizeListeners pg else resizeListeners pg ++ [f]).
Proof. reflexivity. Qed.

Lemma addEffect_shell r v (pg : Page E) :
  shell (snd (addEffect r v pg)) = shell pg
  /\ control (snd (fst (addEffect r v pg))) = control v.
Proof.
  unfold addEffect. destruct (gl v); cbn [negb]; [|now split].
  rewrite !bind_run. autorewrite with shell. now split.
Qed.

Lemma removeEffect_shell r v (pg : Page E) :
  shell (snd (removeEffect r v pg)) = shell pg
  /\ control (snd (fst (removeEffect r v pg))) = control v.
Proof.
  unfold removeEffect. destruct (gl v); cbn [negb]; [|now split].
  destruct (indexOf r (effects v)); [|now split].
  rewrite !bind_run. autorewrite with shell. now split.
Qed.

Lemma resize_shell width height v (pg : Page E) :
  shell (snd (resize width height v pg)) = shell pg
  /\ control (snd (fst (resize width height v pg))) = control v.
Proof.
  unfold resize. destruct (gl v); cbn [negb]; [|now split].
  rewrite !bind_run. autorewrite with shell. now split.
Qed.

Lemma animate_idle v (pg : Page E) :
  isRunning v = false \/ gl v = false -> animate v pg = (v, pg).
Proof.
  intros [Hr|Hg]; unfold animate; rewrite ?Hr, ?Hg;
    [|rewrite orb_true_r]; reflexivity.
Qed.

Lemma animate_running v (pg : Page E) :
  isRunning v = true -> gl v = true ->
  shell (snd (animate v pg))
  = (S (rafNext pg), rafPending pg ++ [rafNext pg],
     closureNext pg, resizeListeners pg)
  /\ control (fst (animate v pg)) = (true, true, Some (rafNext pg)).
Proof.
  intros Hr Hg. unfold animate. rewrite Hr, Hg. cbn [negb orb].
  rewrite !bind_run. autorewrite with shell. split; [reflexivity|].
  unfold control, ret. cbn [fst]. cbn [gl isRunning animationId with_lastTime
    with_animationId]. now rewrite Hr, Hg.
Qed.

Lemma start_running v (pg : Page E) :
  isRunning v = true -> start v pg = ((ReturnThis, v), pg).
Proof. intros Hr. unfold start. now rewrite Hr. Qed.

Lemma start_idle v (pg : Page E) :
  isRunning v = false -> gl v = true ->
  shell (snd (start v pg))
  = (S (rafNext pg), rafPending pg ++ [rafNext pg],
     closureNext pg, resizeListeners pg)
  /\ control (snd (fst (start v pg))) = (true, true, Some (rafNext pg)).
Proof.
  intros Hr Hg. unfold start. rewrite Hr. rewrite !bind_run.
  unfold ret at 1 2. cbn [fst snd].
  match goal with
  | |- context [animate ?v1 ?p] =>
      destruct (animate_running v1 p eq_refl Hg) as [Hs Hc]
  end.
  rewrite Hs, Hc. now autorewrite with shell.
Qed.

Lemma stop_idle v (pg : Page E) :
  isRunning v = false -> stop v pg = ((ReturnThis, v), pg).
Proof. intros Hr. unfold stop. now rewrite Hr. Qed.

Lemma stop_running v (pg : Page E) :
  isRunning v = true ->
  shell (snd (stop v pg))
  = (rafNext pg,
     match animationId v with
     | Some id => without id (rafPending pg)
     | None => rafPending pg
     end,
     closureNext pg, resizeListeners pg)
  /\ control (snd (fst (stop v pg))) = (gl v, false, None).
Proof.
  intros Hr. unfold stop. rewrite Hr. cbn [negb].
  cbn [animationId with_isRunning].
  destruct (animationId v) as [id|] eqn:Ha.
  - rewrite bind_run. split; [reflexivity|]. reflexivity.
  - split; [reflexivity|]. unfold control, ret. cbn. now rewrite Ha.
Qed.

Lemma stop_not_running v (pg : Page E) : isRunning (snd (fst (stop v pg))) = false.
Proof.
  destruct (isRunning v) eqn:Hr.
  - destruct (stop_running v pg Hr) as [_ Hc]. now injection Hc.
  - now rewrite stop_idle.
Qed.

Lemma stop_gl v (pg : Page E) : gl (snd (fst (stop v pg))) = gl v.
Proof.
  destruct (isRunning v) eqn:Hr.
  - destruct (stop_running v pg Hr) as [_ Hc]. now injection Hc.
  - now rewrite stop_idle.
Qed.

Lemma destroy_shell v (pg : Page E) :
  shell (snd (destroy v pg))
  = (let '(n, pending, c, ls) := shell (snd (stop v pg)) in
     (n, pending, S c, without c ls))
  /\ control (snd (fst (destroy v pg))) = control (snd (fst (stop v pg)))
  /\ effects (snd (fst (destroy v pg))) = []
  /\ interactionManager (snd (fst (destroy v pg))) = None
  /\ fst (fst (destroy v pg)) = ReturnUndefined.
Proof.
  unfold destroy. rewrite !bind_run.
  set (r := stop v pg). set (v1 := snd (fst r)).
  split; [|split; [|split; [|split]]].
  - rewrite shell_ret, shell_removeEventListener.
    match goal with |- context [closure ?p] => set (pg2 := p) end.
    assert (Hpg2 : shell pg2 = shell (snd r)).
    { subst pg2. destruct (gl v1); now autorewrite with shell. }
    cbn [closure fst snd rafNext rafPending closureNext resizeListeners].
    now rewrite <- Hpg2.
  - unfold ret. cbn [fst snd].
    destruct (interactionManager (with_effects _ _)) eqn:Him;
      first [reflexivity | exact Him].
  - unfold ret. cbn [fst snd].
    destruct (interactionManager (with_effects _ _)) eqn:Him;
      first [reflexivity | exact Him].
  - unfold ret. cbn [fst snd].
    destruct (interactionManager (with_effects _ _)) eqn:Him;
      first [reflexivity | exact Him].
  - reflexivity.
Qed.

Lemma frame_stale id v (pg : Page E) : id ∉ rafPending pg -> frame id v pg = (v, pg).
Proof.
  intros Hid. unfold frame. now rewrite bool_decide_eq_false_2 by exact Hid.
Qed.
(** *** The scheduling invariant *)

Lemma scheduled_transport v (pg : Page E) v' (pg' : Page E) :
  shell pg' = shell pg -> control v' = control v ->
  scheduled v pg -> scheduled v' pg'.
Proof.
  unfold shell, control, scheduled.
  intros Hs Hc. injection Hs as _ -> -> ->. injection Hc as -> -> ->.
  tauto.
Qed.

Lemma scheduled_idle v (pg : Page E) :
  scheduled v pg -> isRunning v = false -> rafPending pg = [].
Proof.
  intros (_ & _ & _ & [Hp | (Hr & _)]) Hidle; [exact Hp | congruence].
Qed.

Lemma stop_scheduled v (pg : Page E) :
  scheduled v pg ->
  scheduled (snd (fst (stop v pg))) (snd (stop v pg))
  /\ rafPending (snd (stop v pg)) = [].
Proof.
  intros Hsch. destruct (isRunning v) eqn:Hr.
  - destruct (stop_running v pg Hr) as [Hs Hc].
    destruct Hsch as (Hg & Hl & Hcl & Hp).
    unfold shell in Hs. injection Hs as _ Hpend Hcn Hls.
    unfold control in Hc. injection Hc as Hg' Hr' Ha'.
    assert (Hnil : rafPending (snd (stop v pg)) = []).
    { rewrite Hpend.
      destruct Hp as [-> | (_ & id & -> & ->)];
        [now destruct (animationId v) | apply without_single]. }
    split; [|exact Hnil]. unfold scheduled.
    rewrite Hg', Hls, Hcn. tauto.
  - rewrite stop_idle by exact Hr. split; [exact Hsch|].
    now apply scheduled_idle with v.
Qed.

Lemma call_scheduled op v (pg : Page E) :
  scheduled v pg -> scheduled (fst (call op v pg)) (snd (call op v pg)).
Proof.
  intros Hsch. destruct op as [r|r| | |width height| |id]; cbn [call].
  - rewrite bind_run.
    eapply scheduled_transport; [..|exact Hsch]; apply addEffect_shell.
  - rewrite bind_run.
    eapply scheduled_transport; [..|exact Hsch]; apply removeEffect_shell.
  - rewrite bind_run. unfold ret. cbn [fst snd].
    destruct (isRunning v) eqn:Hr.
    + now rewrite start_running.
    + pose proof (scheduled_idle _ _ Hsch Hr) as Hnil.
      destruct Hsch as (Hg & Hl & Hcl & _).
      destruct (start_idle v pg Hr Hg) as [Hs Hc].
      unfold shell in Hs. injection Hs as _ Hpend Hcn Hls.
      unfold control in Hc. injection Hc as Hg' Hr' Ha'.
      unfold scheduled. rewrite Hg', Hls, Hcn, Hpend, Hnil, Hr', Ha'.
      repeat split; try assumption. right. split; [reflexivity|]. eauto.
  - rewrite bind_run. unfold ret. cbn [fst snd]. now apply stop_scheduled.
  - rewrite bind_run.
    eapply scheduled_transport; [..|exact Hsch]; apply resize_shell.
  - rewrite bind_run. unfold ret. cbn [fst snd].
    destruct (destroy_shell v pg) as (Hs & Hc & _).
    destruct (stop_scheduled v pg Hsch) as [(Hg & Hl & Hcl & _) Hnil].
    unfold control in Hc. injection Hc as Hg' _ _.
    unfold shell in Hs. rewrite Hl in Hs. injection Hs as _ Hpend Hcn Hls.
    unfold scheduled. rewrite Hg', Hls, Hcn, Hpend, Hnil.
    repeat split; try assumption; [|lia|now left].
    apply without_fresh. constructor; [exact Hcl|constructor].
  - destruct (decide (id ∈ rafPending pg)) as [Hin|Hout].
    + rewrite frame_fired by exact Hin.
      destruct Hsch as (Hg & Hl & Hcl & [Hp | (Hr & id' & Ha & Hp)]).
      { rewrite Hp in Hin. now apply elem_of_nil in Hin. }
      rewrite Hp in Hin. apply list_elem_of_singleton in Hin as ->.
      set (pg' := snd (cancelAnimationFrame id' pg)).
      destruct (animate_running v pg' Hr Hg) as [Hs Hc].
      unfold shell in Hs. injection Hs as _ Hpend Hcn Hls.
      unfold control in Hc. injection Hc as Hg' Hr' Ha'.
      unfold scheduled. rewrite Hg', Hls, Hcn, Hpend, Hr', Ha'.
      subst pg'.
      cbn [cancelAnimationFrame snd rafPending rafNext closureNext
           resizeListeners].
      rewrite Hp, without_single.
      repeat split; try assumption. right. split; [reflexivity|]. eauto.
    + now rewrite frame_stale.
Qed.

Lemma run_scheduled ops :
  forall v pg,
    scheduled v pg -> scheduled (fst (run ops v pg)) (snd (run ops v pg)).
Proof.
  induction ops as [|op ops IH]; intros v pg Hsch; cbn [run]; [exact Hsch|].
  rewrite bind_run. now apply IH, call_scheduled.
Qed.

Lemma new_scheduled o devicePixelRatio webgl e objects v0 pg0 :
  new o devicePixelRatio webgl (blank e objects) = (Some v0, pg0) ->
  scheduled v0 pg0.
Proof.
  unfold new. intros Hnew.
  destruct (match canvas_arg o with
            | Selector found => found
            | Element c => Some c
            | Missing => Some (mkCanvas 300 150 300 150 None None)
            end) as [c|]; [|discriminate].
  destruct webgl; cbn [negb] in Hnew; [|discriminate].
  rewrite !bind_run in Hnew. injection Hnew as <- <-.
  unfold scheduled. cbn. repeat split; [lia | now left].
Qed.
(** A destroyed engine: [destroy] only creates the function object it
    hands to [removeEventListener]. *)
Lemma destroy_settled v (pg : Page E) :
  isRunning v = false -> effects v = [] -> interactionManager v = None ->
  Forall (fun f => (f < closureNext pg)%nat) (resizeListeners pg) ->
  destroy v pg
  = ((ReturnUndefined, v),
     mkPage (env pg) (heap pg) (rafNext pg) (rafPending pg)
            (S (closureNext pg)) (resizeListeners pg) (calls pg)).
Proof.
  intros Hr He Hi Hf.
  destruct v as [cv g ef aid st lt run im d]. simpl in Hr, He, Hi. subst.
  unfold destroy. rewrite !bind_run.
  destruct g; cbn -[without]; now rewrite without_fresh.
Qed.

(** C7: on an engine constructed on a blank page and driven by any
    sequence of method calls and frames, [start] while running, [stop]
    while not running and [removeEffect] of an effect that is not
    registered return the engine and change nothing; a second
    [destroy] changes nothing of the engine, the effects, the
    scheduler, the listeners or the surface (it only creates the
    function object it passes to [removeEventListener]); and at most
    one frame callback is pending. *)
Theorem repeated_calls_are_noops
        (o : Options) (devicePixelRatio : option Q) (webgl : bool)
        (e : Env) (objects : gmap nat E) (v0 : t) (pg0 : Page E)
        (ops : list Op) :
  new o devicePixelRatio webgl (blank e objects) = (Some v0, pg0) ->
  let v := fst (run ops v0 pg0) in
  let pg := snd (run ops v0 pg0) in
  (isRunning v = true -> start v pg = ((ReturnThis, v), pg))
  /\ (isRunning v = false -> stop v pg = ((ReturnThis, v), pg))
  /\ (forall effect, effect ∉ effects v ->
        removeEffect effect v pg = ((ReturnThis, v), pg))
  /\ (let v1 := snd (fst (destroy v pg)) in
      let pg1 := snd (destroy v pg) in
      destroy v1 pg1
      = ((ReturnUndefined, v1),
         mkPage (env pg1) (heap pg1) (rafNext pg1) (rafPending pg1)
                (S (closureNext pg1)) (resizeListeners pg1) (calls pg1)))
  /\ (length (rafPending pg) <= 1)%nat.
Proof.
  intros Hnew. cbv zeta.
  pose proof (run_scheduled ops _ _ (new_scheduled _ _ _ _ _ _ _ Hnew)) as Hsch.
  set (v := fst (run ops v0 pg0)) in *.
  set (pg := snd (run ops v0 pg0)) in *.
  split; [apply start_running|]. split; [apply stop_idle|].
  split; [|split].
  - intros r Hr. unfold removeEffect.
    destruct (gl v); cbn [negb]; [|reflexivity].
    now rewrite indexOf_None.
  - pose proof (call_scheduled OpDestroy _ _ Hsch) as Hd.
    cbn [call] in Hd. rewrite bind_run in Hd. unfold ret in Hd.
    cbn [fst snd] in Hd. destruct Hd as (_ & Hl & Hcl & _).
    destruct (destroy_shell v pg) as (_ & Hc & He & Hi & _).
    apply destroy_settled; try assumption.
    + unfold control in Hc. injection Hc as _ Hr _. rewrite Hr.
      apply stop_not_running.
    + rewrite Hl. constructor; [exact Hcl|constructor].
  - destruct Hsch as (_ & _ & _ & [-> | (_ & id & _ & ->)]); simpl; lia.
Qed.

(** C8 (what the code does): on an engine constructed on a blank page,
    the function object registered by the constructor as listener of
    the window's resize event is still registered after [destroy],
    whatever happened in between: [destroy] hands a new function
    object to [removeEventListener]. *)
Theorem destroy_leaves_resize_listener
        (o : Options) (devicePixelRatio : option Q) (webgl : bool)
        (e : Env) (objects : gmap nat E) (v0 : t) (pg0 : Page E)
        (ops : list Op) :
  new o devicePixelRatio webgl (blank e objects) = (Some v0, pg0) ->
  let v := fst (run ops v0 pg0) in
  let pg := snd (run ops v0 pg0) in
  resizeListeners (blank e objects) = []
  /\ resizeListeners pg0 = [0%nat]
  /\ resizeListeners (snd (destroy v pg)) = [0%nat].
Proof.
  intros Hnew. cbv zeta.
  pose proof (new_scheduled _ _ _ _ _ _ _ Hnew) as Hsch0.
  pose proof (run_scheduled ops _ _ Hsch0) as Hsch.
  pose proof (call_scheduled OpDestroy _ _ Hsch) as Hd.
  cbn [call] in Hd. rewrite bind_run in Hd. unfold ret in Hd.
  cbn [fst snd] in Hd.
  split; [reflexivity|]. split; [apply Hsch0 | apply Hd].
Qed.

(** C9 (amended): [addEffect], [removeEffect], [start], [stop] and
    [resize] return the engine; [destroy] returns nothing. *)
Theorem chaining_methods_return_this (v : t) (pg : Page E) :
  (forall effect, fst (fst (addEffect effect v pg)) = ReturnThis)
  /\ (forall effect, fst (fst (removeEffect effect v pg)) = ReturnThis)
  /\ fst (fst (start v pg)) = ReturnThis
  /\ fst (fst (stop v pg)) = ReturnThis
  /\ (forall width height,
        fst (fst (resize width height v pg)) = ReturnThis)
  /\ fst (fst (destroy v pg)) = ReturnUndefined.
Proof.
  repeat split.
  - intros r. unfold addEffect. destruct (gl v); cbn [negb]; [|reflexivity].
    now rewrite !bind_run.
  - intros r. unfold removeEffect.
    destruct (gl v); cbn [negb]; [|reflexivity].
    destruct (indexOf r (effects v)); [|reflexivity]. now rewrite !bind_run.
  - unfold start. destruct (isRunning v); [reflexivity|]. now rewrite !bind_run.
  - unfold stop. destruct (isRunning v); cbn [negb]; [|reflexivity].
    destruct (animationId _); [|reflexivity]. now rewrite bind_run.
  - intros width height. unfold resize.
    destruct (gl v); cbn [negb]; [|reflexivity]. now rewrite !bind_run.
  - apply destroy_shell.
Qed.

End Engine.

(** *** Resizing the effects of the library *)

Section Resize.
Context `{Host}.
#[local] Existing Instance Effect.any.












(** The loop of [resize] over the registered effects. *)
Local Abbreviation resize_loop w h rs :=
  (for_each rs (fun effect =>
                  log (CallResize effect w h) ;;;
                  on_effect effect (Effect.resize w h))).






End Resize.

#[local] Existing Instance Sample.host.
#[local] Existing Instance Effect.any.

Lemma frame_interleaves_update_and_render_witness :
  let v := fst Sample.started in
  let pg := snd Sample.started in
  let now := performance_now (clockReads (env pg)) in
  (0%nat ∈ rafPending pg /\ isRunning v = true /\ gl v = true)
  /\ world (snd (frame 0 v pg))
     = interleaved_pass ((now - startTime v) / 1000) ((now - lastTime v) / 1000)
         [0%nat; 1%nat]
         (heap pg, snd (gl_call glClear (snd (performance_now_call (env pg))))).
Proof.
  cbv zeta.
  assert (Hp : rafPending (snd Sample.started) = [0%nat])
    by (vm_compute; reflexivity).
  assert (Hin : 0%nat ∈ rafPending (snd Sample.started))
    by (rewrite Hp; now apply list_elem_of_singleton).
  assert (Hr : isRunning (fst Sample.started) = true)
    by (vm_compute; reflexivity).
  assert (Hg : gl (fst Sample.started) = true) by (vm_compute; reflexivity).
  assert (He : effects (fst Sample.started) = [0%nat; 1%nat])
    by (vm_compute; reflexivity).
  split; [now repeat split|].
  pose proof (proj1 (frame_interleaves_update_and_render
                       0 (fst Sample.started) (snd Sample.started) Hin Hr Hg))
    as Hc.
  rewrite He in Hc. exact Hc.
Defined.

Lemma repeated_calls_are_noops_witness :
  match Sample.boot with
  | (Some v0, pg0) =>
      (length (rafPending
                 (snd (run [OpStop; OpStart; OpStart; OpStop; OpStop;
                            OpDestroy; OpDestroy] v0 pg0))) <= 1)%nat
  | (None, _) => False
  end.
Proof.
  destruct Sample.boot as [[v0|] pg0] eqn:Hboot.
  - apply (repeated_calls_are_noops
             Sample.options (Some 1) true Sample.env0 Sample.objects v0 pg0
             [OpStop; OpStart; OpStart; OpStop; OpStop; OpDestroy; OpDestroy]
             Hboot).
  - vm_compute in Hboot. discriminate Hboot.
Defined.

Lemma destroy_leaves_resize_listener_witness :
  match Sample.boot with
  | (Some v0, pg0) =>
      resizeListeners Sample.page = []
      /\ resizeListeners pg0 = [0%nat]
      /\ resizeListeners (snd (destroy v0 pg0)) = [0%nat]
  | (None, _) => False
  end.
Proof.
  destruct Sample.boot as [[v0|] pg0] eqn:Hboot.
  - apply (destroy_leaves_resize_listener
             Sample.options (Some 1) true Sample.env0 Sample.objects v0 pg0 []
             Hboot).
  - vm_compute in Hboot. discriminate Hboot.
Defined.

(** C9, as stated, fails for [destroy]: it returns nothing. *)
Lemma destroy_returns_undefined :
  fst (fst (destroy (fst Sample.started) (snd Sample.started)))
  = ReturnUndefined
  /\ ReturnUndefined <> ReturnThis.
Proof.
  split; [|discriminate].
  apply (destroy_shell (fst Sample.started) (snd Sample.started)).
Qed.




End VizFXFacts.

(** ** Colours *)

Module ColorFacts.
Import Color ColorSpec.

Lemma hexDigit_range c v : hexDigit c = Some v -> (0 <= v <= 15)%Z.
Proof.
  unfold hexDigit. set (n := Z.of_nat (nat_of_ascii c)).
  destruct ((48 <=? n)%Z && (n <=? 57)%Z) eqn:H1;
    [|destruct ((97 <=? n)%Z && (n <=? 102)%Z) eqn:H2;
      [|destruct ((65 <=? n)%Z && (n <=? 70)%Z) eqn:H3]];
    intros [= <-] || discriminate;
    match goal with
    | Hb : (_ && _) = true |- _ => apply andb_prop in Hb as [?%Z.leb_le ?%Z.leb_le]
    end; lia.
Qed.

Lemma group_range hi lo n : group hi lo = Some n -> (0 <= n <= 255)%Z.
Proof.
  unfold group.
  destruct (hexDigit hi) as [h|] eqn:Hh; [|discriminate].
  destruct (hexDigit lo) as [l|] eqn:Hl; [|discriminate].
  intros [= <-]. apply hexDigit_range in Hh, Hl. lia.
Qed.

Lemma byte_fraction n : (0 <= n <= 255)%Z -> unit_interval (inject_Z n / 255).
Proof.
  intros Hn. unfold unit_interval, Qle, Qdiv, Qmult, Qinv, inject_Z. simpl. lia.
Qed.

(** A first character other than the number sign is not stripped. *)
Lemma keep_first c rest :
  c <> "#"%char ->
  match String c rest with
  | String "#" rest' => rest'
  | _ => String c rest
  end = String c rest.
Proof.
  intros Hc. destruct c as [[] [] [] [] [] [] [] []]; try reflexivity.
  now contradiction Hc.
Qed.

Lemma hexDigit_not_hash c v : hexDigit c = Some v -> c <> "#"%char.
Proof. intros Hd ->. discriminate Hd. Qed.

Lemma group_hex2 upper n : isByte n -> 
  match hex2 upper n with
  | String hi (String lo EmptyString) => group hi lo = Some n
  | _ => False
  end.
Proof.
  intros Hn. unfold isByte in Hn.
  assert (Hall : forallb
            (fun k => match hex2 upper (Z.of_nat k) with
                      | String hi (String lo EmptyString) =>
                          match group hi lo with
                          | Some m => (m =? Z.of_nat k)%Z
                          | None => false
                          end
                      | _ => false
                      end) (seq 0 256) = true)
    by (destruct upper; vm_compute; reflexivity).
  rewrite forallb_forall in Hall.
  specialize (Hall (Z.to_nat n)). rewrite Z2Nat.id in Hall by lia.
  assert (Hin : In (Z.to_nat n) (seq 0 256)) by (apply in_seq; lia).
  apply Hall in Hin. unfold hex2 in *.
  destruct (group _ _) as [m|]; [|discriminate].
  apply Z.eqb_eq in Hin. now subst.
Qed.

Lemma exec_six c1 c2 c3 c4 c5 c6 :
  c1 <> "#"%char ->
  exec (String c1 (String c2 (String c3 (String c4 (String c5 (String c6
          EmptyString))))))
  = match group c1 c2, group c3 c4, group c5 c6 with
    | Some x1, Some x2, Some x3 => Some (x1, x2, x3)
    | _, _, _ => None
    end.
Proof. intros Hc. unfold exec. now rewrite keep_first. Qed.

Lemma exec_hash rest : exec (String "#" rest) = exec rest \/ exec (String "#" rest) = None.
Proof.
  destruct rest as [|c1 rest]; [now right|].
  destruct (ascii_dec c1 "#") as [->|Hc]; [|left; unfold exec; now rewrite keep_first].
  right. unfold exec.
  destruct rest as [|c2 [|c3 [|c4 [|c5 [|c6 [|c7 rest]]]]]]; reflexivity.
Qed.

Lemma exec_length hex v :
  exec hex = Some v ->
  String.length hex = 6%nat
  \/ (String.length hex = 7%nat /\ exists rest, hex = String "#" rest).
Proof.
  destruct hex as [|c1 hex]; [discriminate|].
  destruct (ascii_dec c1 "#") as [->|Hc].
  - intros He. right. split; [|now exists hex].
    unfold exec in He.
    destruct hex as [|d1 [|d2 [|d3 [|d4 [|d5 [|d6 [|d7 hex]]]]]]];
      try discriminate He. reflexivity.
  - intros He. left. unfold exec in He. rewrite keep_first in He by exact Hc.
    destruct hex as [|d2 [|d3 [|d4 [|d5 [|d6 [|d7 hex]]]]]];
      try discriminate He. reflexivity.
Qed.

(** X1: every component that [hexToRgb] returns lies between 0 and 1,
    whatever the string. *)
Theorem hexToRgb_unit_interval (hex : string) :
  unit_interval (r (hexToRgb hex))
  /\ unit_interval (g (hexToRgb hex))
  /\ unit_interval (b (hexToRgb hex)).
Proof.
  unfold hexToRgb. destruct (exec hex) as [[[x1 x2] x3]|] eqn:He.
  - assert (Hb : isByte x1 /\ isByte x2 /\ isByte x3).
    { destruct hex as [|c1 hex]; [discriminate|].
      assert (Hbody : exists d1 d2 d3 d4 d5 d6,
                 group d1 d2 = Some x1 /\ group d3 d4 = Some x2
                 /\ group d5 d6 = Some x3).
      { unfold exec in He.
        match type of He with
        | match ?body with _ => _ end = _ =>
            destruct body as [|d1 [|d2 [|d3 [|d4 [|d5 [|d6 [|d7 ?]]]]]]];
              try discriminate He
        end.
        exists d1, d2, d3, d4, d5, d6.
        destruct (group d1 d2), (group d3 d4), (group d5 d6);
          try discriminate He. now injection He as -> -> ->. }
      destruct Hbody as (d1 & d2 & d3 & d4 & d5 & d6 & H1 & H2 & H3).
      unfold isByte. split; [|split]; eapply group_range; eassumption. }
    destruct Hb as (H1 & H2 & H3). simpl.
    split; [|split]; now apply byte_fraction.
  - simpl. unfold unit_interval. repeat split; discriminate.
Qed.

(** X2: a colour written as six hexadecimal digits, in upper or in lower
    case, with or without a leading number sign, is read back as its three
    bytes divided by 255. *)
Theorem hexToRgb_hexColor (hash upper : bool) (red green blue : Z) :
  isByte red -> isByte green -> isByte blue ->
  hexToRgb (hexColor hash upper red green blue)
  = mkRGB (inject_Z red / 255) (inject_Z green / 255) (inject_Z blue / 255).
Proof.
  intros Hr Hg Hb.
  pose proof (group_hex2 upper red Hr) as H1.
  pose proof (group_hex2 upper green Hg) as H2.
  pose proof (group_hex2 upper blue Hb) as H3.
  unfold hexColor, hex2 in *.
  set (a1 := hexChar upper (red / 16)) in *.
  set (a2 := hexChar upper (red mod 16)) in *.
  set (a3 := hexChar upper (green / 16)) in *.
  set (a4 := hexChar upper (green mod 16)) in *.
  set (a5 := hexChar upper (blue / 16)) in *.
  set (a6 := hexChar upper (blue mod 16)) in *.
  assert (Hne : a1 <> "#"%char).
  { unfold group in H1. destruct (hexDigit a1) eqn:Hd; [|discriminate].
    eapply hexDigit_not_hash, Hd. }
  assert (He : exec (String a1 (String a2 (String a3 (String a4 (String a5
                 (String a6 EmptyString))))))
               = Some (red, green, blue))
    by (rewrite exec_six, H1, H2, H3 by exact Hne; reflexivity).
  assert (He' : exec (String "#" (String a1 (String a2 (String a3 (String a4
                  (String a5 (String a6 EmptyString)))))))
                = Some (red, green, blue)).
  { unfold exec at 1. cbv iota beta. unfold exec in He.
    rewrite keep_first in He by exact Hne. exact He. }
  unfold hexToRgb. destruct hash.
  - change (exec _) with
      (exec (String "#" (String a1 (String a2 (String a3 (String a4
               (String a5 (String a6 EmptyString)))))))).
    now rewrite He'.
  - change (exec _) with
      (exec (String a1 (String a2 (String a3 (String a4
               (String a5 (String a6 EmptyString))))))).
    now rewrite He.
Qed.

(** X3: a string that is neither six characters long nor seven with a
    leading number sign (the three-digit shorthand, for instance), and a
    six-character string with a character that is no hexadecimal digit,
    give white. *)
Theorem hexToRgb_malformed (hex : string) :
  (String.length hex <> 6%nat ->
   ~ (String.length hex = 7%nat /\ exists rest, hex = String "#" rest) ->
   hexToRgb hex = white)
  /\ (String.length hex = 6%nat ->
      (exists c, In c (list_ascii_of_string hex) /\ hexDigit c = None) ->
      hexToRgb hex = white)
  /\ hexToRgb "#fff" = white.
Proof.
  split; [|split; [|reflexivity]].
  - intros H6 H7. unfold hexToRgb.
    destruct (exec hex) as [v|] eqn:He; [|reflexivity].
    apply exec_length in He. tauto.
  - intros H6 (c & Hin & Hc). unfold hexToRgb.
    destruct (exec hex) as [[[x1 x2] x3]|] eqn:He; [exfalso|reflexivity].
    destruct hex as [|c1 [|c2 [|c3 [|c4 [|c5 [|c6 [|c7 hex]]]]]]];
      try discriminate H6.
    destruct (ascii_dec c1 "#") as [->|Hne]; [discriminate He|].
    rewrite exec_six in He by exact Hne. unfold group in He.
    simpl in Hin.
    destruct (hexDigit c1) eqn:E1, (hexDigit c2) eqn:E2, (hexDigit c3) eqn:E3,
             (hexDigit c4) eqn:E4, (hexDigit c5) eqn:E5, (hexDigit c6) eqn:E6;
      try discriminate He.
    destruct Hin as [<-|[<-|[<-|[<-|[<-|[<-|[]]]]]]]; congruence.
Qed.

Lemma hexToRgb_hexColor_witness :
  hexToRgb "#FF8000" = mkRGB (inject_Z 255 / 255) (inject_Z 128 / 255)
                             (inject_Z 0 / 255).
Proof.
  apply (hexToRgb_hexColor true true 255 128 0); unfold isByte; lia.
Defined.

Lemma hexToRgb_malformed_witness :
  hexToRgb "#ffff" = white /\ hexToRgb "12345g" = white.
Proof.
  split.
  - apply (proj1 (hexToRgb_malformed "#ffff")).
    + simpl. lia.
    + simpl. intros [Hl _]. lia.
  - apply (proj1 (proj2 (hexToRgb_malformed "12345g"))); [reflexivity|].
    exists "g"%char. split; [simpl; tauto | reflexivity].
Defined.

End ColorFacts.

(** ** GradientMesh colours *)

Module GradientMeshFacts.
Import GradientMesh.

(** X4: [render] always uploads four colours: the configured ones in
    order (the first four when there are more), then the last configured
    one repeated; with no colour configured, four times the conversion of
    [undefined], which is white. *)
Theorem shaderColors_four (s : t) :
  let cs := colors (options s) in
  length (shaderColors s) = 4%nat
  /\ (forall i c, (i < 4)%nat -> cs !! i = Some c ->
        shaderColors s !! i = Some (Color.hexToRgb c))
  /\ (forall i c, (length cs <= i)%nat -> (i < 4)%nat -> last cs = Some c ->
        shaderColors s !! i = Some (Color.hexToRgb c))
  /\ (cs = [] ->
      shaderColors s = [Color.white; Color.white; Color.white; Color.white]).
Proof.
  destruct s as [[cs sp cx] prog quad w h]. cbv zeta. unfold shaderColors.
  cbn [options colors].
  destruct cs as [|c1 [|c2 [|c3 [|c4 rest]]]]; cbn -[Color.hexToRgb];
    (split; [reflexivity|]); (split; [|split]);
    try (intros i c Hi Hc; destruct i as [|[|[|[|i]]]]; simpl in *;
         first [lia | congruence]);
    try (intros i c Hlen Hi Hc; destruct i as [|[|[|[|i]]]]; simpl in *;
         first [lia | congruence]);
    try (intros Hnil; first [discriminate Hnil | reflexivity]).
Qed.

Lemma shaderColors_four_witness :
  shaderColors (new (mkOptions ["#ff0000"; "#0000ff"]%string 1 3)) !! 3%nat
  = Some (Color.hexToRgb "#0000ff").
Proof.
  apply (proj1 (proj2 (proj2
           (shaderColors_four (new (mkOptions ["#ff0000"; "#0000ff"]%string 1 3))))));
    [simpl; lia | lia | reflexivity].
Defined.

End GradientMeshFacts.

(** ** Pointer interaction *)

Module InteractionManagerFacts.
Import InteractionManager.

Lemma unit_fraction a c : 0 < c -> 0 <= a -> a <= c -> 0 <= a / c /\ a / c <= 1.
Proof.
  intros Hc Ha Hac. split.
  - apply Qle_shift_div_l; [exact Hc | lra].
  - apply Qle_shift_div_r; [exact Hc | lra].
Qed.

Lemma atLeastOne_spec a : 1 <= atLeastOne a /\ (1 <= a -> atLeastOne a = a).
Proof.
  unfold atLeastOne. destruct (Qlt_bool a 1) eqn:Hb.
  - apply Qlt_bool_iff in Hb. split; [lra | intros; lra].
  - apply Qlt_bool_false_iff in Hb. now split.
Qed.

Section WithHost.
Context `{Host}.

(** X5: a move inside the bounding box of a canvas of positive size
    gives normalized coordinates between -1 and 1; the left edge is -1,
    the right edge 1, the top edge 1 and the bottom edge -1. *)
Theorem handleMove_normalized (rect : Rect) (clientX clientY : Q) (m : t) (e : Env) :
  0 < rwidth rect -> 0 < rheight rect ->
  left rect <= clientX -> clientX <= left rect + rwidth rect ->
  top rect <= clientY -> clientY <= top rect + rheight rect ->
  let n := normalized (pointer (fst (handleMove rect clientX clientY m e))) in
  (-1 <= x n /\ x n <= 1) /\ (-1 <= y n /\ y n <= 1)
  /\ (clientX == left rect -> x n == -1)
  /\ (clientX == left rect + rwidth rect -> x n == 1)
  /\ (clientY == top rect -> y n == 1)
  /\ (clientY == top rect + rheight rect -> y n == -1).
Proof.
  intros Hw Hh Hx0 Hx1 Hy0 Hy1. cbv zeta.
  unfold handleMove. rewrite bind_run. cbn [ret fst pointer normalized set x y].
  destruct (unit_fraction (clientX - left rect) (rwidth rect) Hw) as [Hqx0 Hqx1];
    [lra | lra |].
  destruct (unit_fraction (clientY - top rect) (rheight rect) Hh) as [Hqy0 Hqy1];
    [lra | lra |].
  split; [lra|]. split; [lra|]. repeat split.
  - intros Heq. assert (Hz : clientX - left rect == 0) by lra.
    rewrite Hz. field. lra.
  - intros Heq. assert (Hz : clientX - left rect == rwidth rect) by lra.
    rewrite Hz. field. lra.
  - intros Heq. assert (Hz : clientY - top rect == 0) by lra.
    rewrite Hz. field. lra.
  - intros Heq. assert (Hz : clientY - top rect == rheight rect) by lra.
    rewrite Hz. field. lra.
Qed.

(** X6: the velocity of a move is the displacement from the previous
    position divided by the elapsed time in seconds, the elapsed time
    being counted as at least one millisecond: the divisor is never
    below 1/1000, so the division is never by zero.  The previous
    position is remembered, the time of the move is recorded, and the
    press state is untouched. *)
Theorem handleMove_velocity (rect : Rect) (clientX clientY : Q) (m : t) (e : Env) :
  let m' := fst (handleMove rect clientX clientY m e) in
  let now := Date_now (clockReads e) in
  let dt := atLeastOne (now - lastTime m) / 1000 in
  (1 # 1000) <= dt
  /\ x (velocity (pointer m')) * dt
     == clientX - left rect - x (position (pointer m))
  /\ y (velocity (pointer m')) * dt
     == clientY - top rect - y (position (pointer m))
  /\ (1 <= now - lastTime m ->
      x (velocity (pointer m')) * (now - lastTime m)
      == 1000 * (clientX - left rect - x (position (pointer m))))
  /\ x (lastPosition m') = x (position (pointer m))
  /\ y (lastPosition m') = y (position (pointer m))
  /\ lastTime m' = now
  /\ isDown (pointer m') = isDown (pointer m).
Proof.
  cbv zeta. unfold handleMove. rewrite bind_run.
  cbn [ret fst snd pointer velocity position lastPosition lastTime isDown
       set x y Date_now_call].
  set (now := Date_now (clockReads e)).
  destruct (atLeastOne_spec (now - lastTime m)) as [H1 Hid].
  set (a := atLeastOne (now - lastTime m)) in *.
  assert (Hdt : (1 # 1000) <= a / 1000).
  { apply Qle_shift_div_l; [reflexivity | lra]. }
  split; [exact Hdt|]. split; [field; lra|]. split; [field; lra|].
  split; [|now repeat split].
  intros Hge. rewrite (Hid Hge). field. lra.
Qed.

End WithHost.

#[local] Existing Instance Sample.host.

Lemma handleMove_normalized_witness :
  let n := normalized
             (pointer (fst (handleMove (mkRect 10 20 800 600) 410 20
                                       (new 0) Sample.env0))) in
  (0 < 800 /\ 0 < 600) /\ (-1 <= x n /\ x n <= 1) /\ y n == 1.
Proof.
  cbv zeta.
  pose proof (handleMove_normalized (mkRect 10 20 800 600) 410 20 (new 0)
                Sample.env0) as Hn.
  simpl rwidth in Hn. simpl rheight in Hn. simpl left in Hn. simpl top in Hn.
  destruct Hn as (Hx & _ & _ & _ & Htop & _); try reflexivity; try discriminate.
  split; [split; reflexivity|]. split; [exact Hx|]. apply Htop. reflexivity.
Defined.

End InteractionManagerFacts.

(** ** The life cycle of an effect object *)

Module LifecycleFacts.
Import LifecycleSpec.

Section WithHost.
Context `{Host}.
#[local] Existing Instance Effect.any.

Lemma createParticle_env o e :
  snd (ParticleSystem.createParticle o e)
  = mkEnv (4 + draws e) (clockReads e) (glNext e) (glLog e).
Proof. reflexivity. Qed.

Lemma emit_env o n :
  forall e,
    snd (ParticleSystem.emit o n e)
    = mkEnv (4 * n + draws e) (clockReads e) (glNext e) (glLog e).
Proof.
  induction n as [|n IH]; intros e; simpl ParticleSystem.emit.
  - now destruct e.
  - rewrite !bind_run. cbn [ret snd]. rewrite IH, createParticle_env.
    cbn [draws clockReads glNext glLog]. f_equal. lia.
Qed.

Lemma spawn_env s e :
  snd (FloatingParticles.spawn s e)
  = mkEnv (5 + draws e) (clockReads e) (glNext e) (glLog e).
Proof. reflexivity. Qed.

Lemma spawn_many_env s n :
  forall e,
    snd (FloatingParticles.spawn_many s n e)
    = mkEnv (5 * n + draws e) (clockReads e) (glNext e) (glLog e).
Proof.
  induction n as [|n IH]; intros e; simpl FloatingParticles.spawn_many.
  - now destruct e.
  - rewrite !bind_run. cbn [ret snd]. rewrite IH, spawn_env.
    cbn [draws clockReads glNext glLog]. f_equal. lia.
Qed.

Lemma gl_release_run del h e :
  gl_release del h e
  = (None, mkEnv (draws e) (clockReads e) (glNext e)
                 (glLog e ++ match h with Some p => [del p] | None => [] end)).
Proof.
  destruct h; simpl; [reflexivity|]. rewrite app_nil_r. now destruct e.
Qed.

Lemma any_destroy obj e :
  Effect.destroy obj e
  = match obj with
    | Effect.Particles s =>
        (Effect.Particles (fst (ParticleSystem.destroy s e)),
         snd (ParticleSystem.destroy s e))
    | Effect.Floating s =>
        (Effect.Floating (fst (FloatingParticles.destroy s e)),
         snd (FloatingParticles.destroy s e))
    | Effect.Wave s =>
        (Effect.Wave (fst (WaveEffect.destroy s e)), snd (WaveEffect.destroy s e))
    | Effect.Gradient s =>
        (Effect.Gradient (fst (GradientMesh.destroy s e)),
         snd (GradientMesh.destroy s e))
    end.
Proof.
  destruct obj;
    cbn [Effect.destroy Effect.any Effect.dispatch Effect.particleSystem
         Effect.floatingParticles Effect.waveEffect Effect.gradientMesh];
    unfold Effect.lift; now rewrite bind_run.
Qed.

Lemma any_init obj e :
  Effect.init obj e
  = match obj with
    | Effect.Particles s =>
        (Effect.Particles (fst (ParticleSystem.init s e)),
         snd (ParticleSystem.init s e))
    | Effect.Floating s =>
        (Effect.Floating (fst (FloatingParticles.init s e)),
         snd (FloatingParticles.init s e))
    | Effect.Wave s =>
        (Effect.Wave (fst (WaveEffect.init s e)), snd (WaveEffect.init s e))
    | Effect.Gradient s =>
        (Effect.Gradient (fst (GradientMesh.init s e)),
         snd (GradientMesh.init s e))
    end.
Proof.
  destruct obj;
    cbn [Effect.init Effect.any Effect.dispatch Effect.particleSystem
         Effect.floatingParticles Effect.waveEffect Effect.gradientMesh];
    unfold Effect.lift; now rewrite bind_run.
Qed.

(** What [destroy] does to the environment and to the resources. *)
Lemma destroy_run obj e :
  snd (Effect.destroy obj e)
  = mkEnv (draws e) (clockReads e) (glNext e) (glLog e ++ held obj)
  /\ held (fst (Effect.destroy obj e)) = [].
Proof.
  rewrite any_destroy.
  destruct obj as [s|s|s|s]; cbn [fst snd held];
    unfold ParticleSystem.destroy, FloatingParticles.destroy,
           WaveEffect.destroy, GradientMesh.destroy;
    rewrite !bind_run, !gl_release_run; cbn [fst snd ret draws clockReads glNext glLog];
    (split; [|reflexivity]); f_equal; rewrite <- ?app_assoc; f_equal;
    unfold deletions;
    repeat match goal with
           | |- context [ParticleSystem.program s] => destruct (ParticleSystem.program s)
           | |- context [ParticleSystem.positionBuffer s] => destruct (ParticleSystem.positionBuffer s)
           | |- context [FloatingParticles.particleProgram s] => destruct (FloatingParticles.particleProgram s)
           | |- context [FloatingParticles.lineProgram s] => destruct (FloatingParticles.lineProgram s)
           | |- context [FloatingParticles.particleBuffer s] => destruct (FloatingParticles.particleBuffer s)
           | |- context [FloatingParticles.lineBuffer s] => destruct (FloatingParticles.lineBuffer s)
           | |- context [WaveEffect.program s] => destruct (WaveEffect.program s)
           | |- context [WaveEffect.quadBuffer s] => destruct (WaveEffect.quadBuffer s)
           | |- context [GradientMesh.program s] => destruct (GradientMesh.program s)
           | |- context [GradientMesh.quadBuffer s] => destruct (GradientMesh.quadBuffer s)
           end; reflexivity.
Qed.

Lemma held_nil obj e :
  held obj = [] ->
  Effect.destroy obj e = (obj, e) /\ Effect.render obj e = (tt, e).
Proof.
  intros Hh. destruct obj as [s|s|s|s]; destruct s; unfold held, deletions in Hh;
    simpl in Hh;
    repeat match type of Hh with
           | context [match ?o with _ => _ end] => destruct o; simpl in Hh
           end; try discriminate Hh;
    (split; [rewrite any_destroy; destruct e; reflexivity | reflexivity]).
Qed.

Lemma init_run obj e :
  exists created,
    glLog (snd (Effect.init obj e)) = glLog e ++ created
    /\ held (fst (Effect.init obj e)) = omap release_of created.
Proof.
  rewrite any_init. destruct obj as [s|s|s|s]; cbn [fst snd held].
  - unfold ParticleSystem.init, ParticleSystem.initParticles.
    rewrite !bind_run. cbn [ret fst snd]. rewrite emit_env.
    cbn. rewrite <- app_assoc. eexists. split; reflexivity.
  - unfold FloatingParticles.init, FloatingParticles.initParticles.
    rewrite !bind_run. cbn [ret fst snd]. rewrite spawn_many_env.
    cbn. rewrite <- !app_assoc. eexists. split; reflexivity.
  - unfold WaveEffect.init. rewrite !bind_run. cbn.
    rewrite <- !app_assoc. eexists. split; reflexivity.
  - unfold GradientMesh.init. rewrite !bind_run. cbn.
    rewrite <- !app_assoc. eexists. split; reflexivity.
Qed.

(** X7: [destroy] deletes every program and buffer the effect object
    holds, each once, and nothing else; it draws no random number and
    creates nothing.  The object then holds no resource: another
    [destroy] and any [render] do nothing at all.  The same is true of an
    object that was never initialised. *)
Theorem destroy_releases_once (obj : Effect.Any) (e : Env) :
  let obj' := fst (Effect.destroy obj e) in
  let e' := snd (Effect.destroy obj e) in
  glLog e' = glLog e ++ held obj
  /\ (draws e' = draws e /\ clockReads e' = clockReads e /\ glNext e' = glNext e)
  /\ (forall e2, Effect.destroy obj' e2 = (obj', e2))
  /\ (forall e2, Effect.render obj' e2 = (tt, e2))
  /\ (forall (fresh : Effect.Any) e2,
        held fresh = [] ->
        Effect.destroy fresh e2 = (fresh, e2) /\ Effect.render fresh e2 = (tt, e2))
  /\ (forall o1 o2 o3 o4,
        held (Effect.Particles (ParticleSystem.new o1)) = []
        /\ held (Effect.Floating (FloatingParticles.new o2)) = []
        /\ held (Effect.Wave (WaveEffect.new o3)) = []
        /\ held (Effect.Gradient (GradientMesh.new o4)) = []).
Proof.
  cbv zeta. destruct (destroy_run obj e) as [He Hh]. rewrite He.
  split; [reflexivity|]. split; [now repeat split|].
  split; [intros e2; now apply held_nil|].
  split; [intros e2; now apply held_nil|].
  split; [intros fresh e2; apply held_nil|].
  intros. now repeat split.
Qed.

(** X8: [init] stores the programs and buffers it creates, and the
    [destroy] that follows deletes exactly those, in the order of their
    creation: after [init] and [destroy] nothing created by that [init]
    is left, and nothing else was deleted. *)
Theorem init_then_destroy_balanced (obj : Effect.Any) (e : Env) :
  let obj1 := fst (Effect.init obj e) in
  let e1 := snd (Effect.init obj e) in
  exists created,
    glLog e1 = glLog e ++ created
    /\ held obj1 = omap release_of created
    /\ glLog (snd (Effect.destroy obj1 e1))
       = glLog e ++ created ++ omap release_of created
    /\ held (fst (Effect.destroy obj1 e1)) = [].
Proof.
  cbv zeta. destruct (init_run obj e) as (created & Hlog & Hheld).
  exists created. split; [exact Hlog|]. split; [exact Hheld|].
  destruct (destroy_run (fst (Effect.init obj e)) (snd (Effect.init obj e)))
    as [He Hh].
  rewrite He. cbn [glLog]. rewrite Hlog, Hheld, <- app_assoc. now split.
Qed.

End WithHost.

#[local] Existing Instance Sample.host.
#[local] Existing Instance Effect.any.

Lemma destroy_releases_once_witness :
  Effect.render (Effect.Wave (WaveEffect.new WaveEffect.defaults)) Sample.env0
  = (tt, Sample.env0).
Proof.
  apply (proj1 (proj2 (proj2 (proj2 (proj2
           (destroy_releases_once
              (Effect.Wave (WaveEffect.new WaveEffect.defaults)) Sample.env0)))))).
  reflexivity.
Defined.

End LifecycleFacts.

(** ** ParticleSystem: life, rendering *)

Module ParticleLifeFacts.
Import ParticleSystem ParticleSystemSpec ParticleLifeSpec.

Section WithHost.
Context `{Host}.

Lemma fresh_fading o p : fresh o p -> fading (lifetime o) p.
Proof. intros [e ->]. split; [reflexivity | apply Qle_refl]. Qed.

Lemma step_fading o dt p e :
  0 <= dt -> fading (lifetime o) p -> fading (lifetime o) (fst (step o dt p e)).
Proof.
  intros Hdt [Hm Hl]. destruct (Qlt_le_dec 0 (life p - dt)) as [Ha|Hd].
  - rewrite ParticleSystemFacts.step_alive by (apply Qlt_not_le, Ha).
    split; [exact Hm|]. simpl. lra.
  - rewrite ParticleSystemFacts.step_dead by exact Hd.
    apply fresh_fading. now exists e.
Qed.

Lemma update_loop_fading o dt ps :
  0 <= dt -> Forall (fading (lifetime o)) ps ->
  forall e, Forall (fading (lifetime o)) (fst (update_loop o dt ps e)).
Proof.
  intros Hdt. induction 1 as [|p ps Hp _ IH]; intros e; simpl; [constructor|].
  rewrite !bind_run. simpl. constructor; [now apply step_fading | apply IH].
Qed.

Lemma call_fading op s e :
  forward op -> Forall (fading (lifetime (options s))) (particles s) ->
  lifetime (options (fst (call op s e))) = lifetime (options s)
  /\ Forall (fading (lifetime (options s))) (particles (fst (call op s e))).
Proof.
  intros Hf Hall. destruct op; cbn [call forward] in *.
  - unfold update. rewrite bind_run. cbn [ret fst with_particles options particles].
    split; [reflexivity | now apply update_loop_fading].
  - rewrite bind_run. now split.
  - unfold ret, resize. cbn [fst options particles]. split; [|exact Hall].
    now destruct (_ && _).
  - now split.
  - now split.
  - split; [unfold setCount; now rewrite bind_run|].
    rewrite ParticleSystemFacts.setCount_particles. cbv zeta.
    assert (Hgrown : Forall (fading (lifetime (options s)))
                       (particles s
                        ++ fst (emit (with_count (options s) n)
                                     (n - length (particles s)) e))).
    { apply Forall_app. split; [exact Hall|].
      eapply List.Forall_impl; [|apply ParticleSystemFacts.emit_fresh].
      intros p Hp. now apply fresh_fading in Hp. }
    destruct (_ <? _)%nat; [now apply Forall_take | exact Hgrown].
Qed.

Lemma run_fading ops :
  forall s e,
    Forall forward ops ->
    Forall (fading (lifetime (options s))) (particles s) ->
    lifetime (options (fst (run ops s e))) = lifetime (options s)
    /\ Forall (fading (lifetime (options s))) (particles (fst (run ops s e))).
Proof.
  induction ops as [|op ops IH]; intros s e Hf Hall; cbn [run].
  - now split.
  - rewrite bind_run. apply Forall_cons in Hf as [Hop Hf].
    destruct (call_fading op s e Hop Hall) as [Hl Hc].
    destruct (IH (fst (call op s e)) (snd (call op s e)) Hf) as [Hl' Hc'].
    + now rewrite Hl.
    + rewrite Hl in Hl', Hc'. now split.
Qed.

(** X9: on an initialised system driven by calls that never pass a
    negative deltaTime, every particle keeps the configured lifetime as
    its maximal life and never has more life left than that; so, with a
    positive lifetime, the alpha uploaded for a particle is never above
    1. *)
Theorem life_never_exceeds_lifetime (o : Options) (ops : list Op) (e : Env) :
  Forall forward ops ->
  let s := fst ((s0 <- init (new o) ;; run ops s0) e) in
  lifetime (options s) = lifetime o
  /\ Forall (fading (lifetime o)) (particles s)
  /\ (0 < lifetime o -> Forall (fun p => alpha_of s p <= 1) (particles s)).
Proof.
  intros Hf. cbv zeta. rewrite bind_run.
  set (s0 := fst (init (new o) e)). set (e0 := snd (init (new o) e)).
  assert (Ho : options s0 = o) by apply ParticleSystemFacts.init_options.
  assert (H0 : Forall (fading (lifetime (options s0))) (particles s0)).
  { rewrite Ho. unfold s0. rewrite ParticleSystemFacts.init_particles.
    eapply List.Forall_impl; [|apply ParticleSystemFacts.emit_fresh].
    intros p Hp. now apply fresh_fading in Hp. }
  destruct (run_fading ops s0 e0 Hf H0) as [Hl Hall]. rewrite Ho in Hl, Hall.
  split; [exact Hl|]. split; [exact Hall|].
  intros Hpos. eapply List.Forall_impl; [|exact Hall].
  intros p [Hm Hle]. unfold alpha_of, vertex. cbn [nth].
  destruct (fadeOut _); [|apply Qle_refl].
  apply Qle_shift_div_r; [rewrite Hm; exact Hpos | lra].
Qed.

Lemma update_loop_idle o ps :
  Forall (fun p => 0 < life p) ps ->
  forall e,
    snd (update_loop o 0 ps e) = e
    /\ Forall2 same_motion ps (fst (update_loop o 0 ps e)).
Proof.
  induction 1 as [|p ps Hp _ IH]; intros e; simpl.
  - split; [reflexivity | constructor].
  - rewrite !bind_run. cbn [ret fst snd].
    rewrite ParticleSystemFacts.step_alive by (apply Qlt_not_le; lra).
    cbn [fst snd]. destruct (IH e) as [He Hall]. split; [exact He|].
    constructor; [|exact Hall].
    unfold same_motion, integrated. simpl. repeat split; lra.
Qed.

(** X10: an [update] with deltaTime = 0 on a system whose particles are
    all alive draws no random number and leaves every particle with the
    same position, velocity, life and size. *)
Theorem update_zero_elapsed (s : t) (time : Q) (e : Env) :
  Forall (fun p => 0 < life p) (particles s) ->
  snd (update time 0 s e) = e
  /\ Forall2 same_motion (particles s) (particles (fst (update time 0 s e)))
  /\ options (fst (update time 0 s e)) = options s.
Proof.
  intros Hall. unfold update. rewrite bind_run. cbn [ret fst snd].
  destruct (update_loop_idle (options s) _ Hall e) as [He Hsame].
  now repeat split.
Qed.

Lemma flat_map_length_const {A B} (f : A -> list B) (k : nat) (l : list A) :
  (forall a, length (f a) = k) -> length (flat_map f l) = (k * length l)%nat.
Proof.
  intros Hf. induction l as [|a l IH]; simpl; [lia|].
  rewrite length_app, Hf, IH. lia.
Qed.


End WithHost.

#[local] Existing Instance Sample.host.

Lemma life_never_exceeds_lifetime_witness :
  let s := fst ((s0 <- init (new Sample.three) ;;
                 run [OpUpdate 0 (1#2); OpSetCount 5; OpUpdate (1#2) (3#4)] s0)
                  Sample.env0) in
  Forall forward [OpUpdate 0 (1#2); OpSetCount 5; OpUpdate (1#2) (3#4)]
  /\ Forall (fading (lifetime Sample.three)) (particles s).
Proof.
  cbv zeta.
  assert (Hf : Forall forward [OpUpdate 0 (1#2); OpSetCount 5; OpUpdate (1#2) (3#4)]).
  { repeat constructor; simpl; discriminate. }
  split; [exact Hf|].
  exact (proj1 (proj2
           (life_never_exceeds_lifetime Sample.three _ Sample.env0 Hf))).
Defined.

Lemma update_zero_elapsed_witness :
  let s := fst (init (new Sample.three) Sample.env0) in
  Forall (fun p => 0 < life p) (particles s)
  /\ snd (update 5 0 s Sample.env0) = Sample.env0.
Proof.
  cbv zeta.
  assert (Hall : Forall (fun p => 0 < life p)
                   (particles (fst (init (new Sample.three) Sample.env0)))).
  { rewrite ParticleSystemFacts.init_particles.
    eapply List.Forall_impl; [|apply ParticleSystemFacts.emit_fresh].
    intros p Hp. rewrite (ParticleSystemFacts.fresh_life _ _ Hp). reflexivity. }
  split; [exact Hall|].
  exact (proj1 (update_zero_elapsed _ 5 Sample.env0 Hall)).
Defined.

End ParticleLifeFacts.

(** ** FloatingParticles: count, resizing, rendering *)

Module FloatingParticlesMore.
Import FloatingParticles FloatingParticlesSpec.

Section WithHost.
Context `{Host}.

Lemma spawn_many_length s n : forall e, length (fst (spawn_many s n e)) = n.
Proof.
  induction n as [|n IH]; intros e; simpl; [reflexivity|].
  rewrite !bind_run. simpl. now rewrite IH.
Qed.

Lemma initParticles_count s e :
  options (fst (initParticles s e)) = options s
  /\ length (particles (fst (initParticles s e))) = count (options s).
Proof.
  unfold initParticles. rewrite bind_run. cbn [ret fst with_particles options particles].
  split; [reflexivity | apply spawn_many_length].
Qed.

Lemma init_count s e :
  options (fst (init s e)) = options s
  /\ length (particles (fst (init s e))) = count (options s).
Proof.
  unfold init. rewrite !bind_run.
  match goal with
  | |- context [initParticles ?s' ?e'] =>
      destruct (initParticles_count s' e') as [Ho Hl]
  end.
  split; [exact Ho | exact Hl].
Qed.

Lemma floating_call_count op s e :
  length (particles s) = count (options s) ->
  options (fst (call op s e)) = options s
  /\ length (particles (fst (call op s e))) = count (options s).
Proof.
  intros Hc. destruct op; cbn [call].
  - unfold ret, update. cbn [fst with_particles options particles].
    now rewrite length_map.
  - rewrite bind_run. now split.
  - unfold resize. destruct (_ && _).
    + unfold ret. cbn [fst with_particles with_size options particles].
      now rewrite length_map.
    + destruct (initParticles_count (with_size s w h) e) as [Ho Hl].
      split; [exact Ho | exact Hl].
Qed.

Lemma floating_run_count ops :
  forall s e,
    length (particles s) = count (options s) ->
    options (fst (run ops s e)) = options s
    /\ length (particles (fst (run ops s e))) = count (options s).
Proof.
  induction ops as [|op ops IH]; intros s e Hc; cbn [run]; [now split|].
  rewrite bind_run. destruct (floating_call_count op s e Hc) as [Ho Hl].
  destruct (IH (fst (call op s e)) (snd (call op s e))) as [Ho' Hl'].
  - now rewrite Ho.
  - rewrite Ho in Ho', Hl'. now split.
Qed.

(** X12: once [init] has run, the number of floating particles is the
    configured count and stays so through every sequence of [update],
    [render] and [resize] calls, whether a resize rescales the
    particles or spawns them anew. *)
Theorem floating_count_is_fixed (s : t) (ops : list Op) (e : Env) :
  let s' := fst ((s0 <- init s ;; run ops s0) e) in
  options s' = options s
  /\ length (particles s') = count (options s).
Proof.
  cbv zeta. rewrite bind_run. destruct (init_count s e) as [Ho Hl].
  destruct (floating_run_count ops (fst (init s e)) (snd (init s e))) as [Ho' Hl'].
  - now rewrite Ho.
  - rewrite Ho in Ho', Hl'. now split.
Qed.

Lemma resize_rescales w h s e :
  0 < width s -> 0 < height s ->
  resize w h s e
  = (with_particles (with_size s w h)
       (map (rescale (width s) (height s) w h) (particles s)), e).
Proof.
  intros Hw Hh. unfold resize.
  apply Qlt_bool_iff in Hw, Hh. now rewrite Hw, Hh.
Qed.

Lemma scaled_within a c w :
  0 < c -> 0 <= w -> 0 <= a -> a <= c -> 0 <= a / c * w /\ a / c * w <= w.
Proof.
  intros Hc Hw Ha Hac.
  destruct (InteractionManagerFacts.unit_fraction a c Hc Ha Hac) as [H0 H1].
  split.
  - apply Qmult_le_0_compat; assumption.
  - rewrite <- (Qmult_1_l w) at 2. apply Qmult_le_compat_r; assumption.
Qed.

(** X13: on a surface whose prior logical size is positive, [resize]
    draws no random number and moves every particle proportionally: its
    new coordinate is to the new size what its old coordinate was to the
    old size.  Velocity and size are kept, and a particle that was on the
    old surface is on the new one. *)
Theorem resize_keeps_proportions (w h : Q) (s : t) (e : Env) :
  0 < width s -> 0 < height s ->
  let s' := fst (resize w h s e) in
  snd (resize w h s e) = e
  /\ (width s' = w /\ height s' = h)
  /\ forall i p, particles s !! i = Some p ->
       exists p', particles s' !! i = Some p'
         /\ x (position p') * width s == x (position p) * w
         /\ y (position p') * height s == y (position p) * h
         /\ velocity p' = velocity p /\ psize p' = psize p
         /\ (0 <= w -> 0 <= h ->
             inside (width s) (height s) p -> inside w h p').
Proof.
  intros Hw Hh. cbv zeta. rewrite resize_rescales by assumption.
  cbn [fst snd with_particles with_size width height particles].
  split; [reflexivity|]. split; [now split|].
  intros i p Hi. exists (rescale (width s) (height s) w h p).
  split; [now rewrite list_lookup_fmap, Hi|].
  unfold rescale. cbn [position velocity psize x y].
  split; [field; lra|]. split; [field; lra|].
  split; [reflexivity|]. split; [reflexivity|].
  intros Hw0 Hh0 [[Hx0 Hx1] [Hy0 Hy1]]. unfold inside. cbn [position x y].
  split; now apply scaled_within.
Qed.

(** X14: two resizes in a row, through a positive intermediate size,
    leave the particles where the second resize alone would have put
    them. *)
Theorem resize_composes (w1 h1 w2 h2 : Q) (s : t) (e : Env) :
  0 < width s -> 0 < height s -> 0 < w1 -> 0 < h1 ->
  let direct := fst (resize w2 h2 s e) in
  let through := fst (resize w2 h2 (fst (resize w1 h1 s e)) e) in
  width through = width direct /\ height through = height direct
  /\ Forall2 (fun p q =>
                x (position p) == x (position q)
                /\ y (position p) == y (position q)
                /\ velocity p = velocity q /\ psize p = psize q)
             (particles through) (particles direct).
Proof.
  intros Hw Hh Hw1 Hh1. cbv zeta.
  rewrite (resize_rescales w1 h1 s e) by assumption. cbn [fst].
  rewrite (resize_rescales w2 h2 s e) by assumption. cbn [fst].
  rewrite resize_rescales by assumption.
  cbn [fst with_particles with_size width height particles].
  split; [reflexivity|]. split; [reflexivity|].
  rewrite map_map. apply Forall2_fmap, Forall_Forall2_diag, List.Forall_forall.
  intros p _. unfold rescale. cbn [position velocity psize x y].
  repeat split; field; lra.
Qed.

Lemma inner_length m i a :
  forall rest j, (length (inner m i a j rest) <= length rest)%nat.
Proof.
  induction rest as [|b rest IH]; intros j; simpl; [lia|].
  rewrite length_app. specialize (IH (S j)).
  destruct (Qlt_bool _ m); simpl; lia.
Qed.

Lemma outer_length m :
  forall ps i, (2 * length (outer m i ps) <= length ps * (length ps - 1))%nat.
Proof.
  induction ps as [|a ps IH]; intros i; simpl; [lia|].
  rewrite length_app. specialize (IH (S i)).
  pose proof (inner_length m i a ps (S i)). nia.
Qed.

Lemma lineData_length s : length (lineData s) = (6 * length (connections s))%nat.
Proof.
  unfold lineData. now apply ParticleLifeFacts.flat_map_length_const.
Qed.

(** X15: among n particles there are at most n (n - 1) / 2 connections,
    so none with fewer than two particles; the line data holds six
    numbers per connection. *)
Theorem connections_bound (s : t) :
  (2 * length (connections s)
   <= length (particles s) * (length (particles s) - 1))%nat
  /\ ((length (particles s) <= 1)%nat -> connections s = [])
  /\ length (lineData s) = (6 * length (connections s))%nat.
Proof.
  pose proof (outer_length (connectionDistance (options s)) (particles s) 0)
    as Hb.
  fold (connections s) in Hb.
  split; [exact Hb|]. split; [|apply lineData_length].
  intros Hn. destruct (connections s); [reflexivity|]. simpl in Hb. nia.
Qed.


Lemma clip_coordinate a c : 0 < c -> 0 <= a -> a <= c ->
  -1 <= a / c * 2 - 1 /\ a / c * 2 - 1 <= 1.
Proof.
  intros Hc Ha Hac.
  destruct (InteractionManagerFacts.unit_fraction a c Hc Ha Hac). lra.
Qed.

(** X17: on a surface of positive logical size, every particle is drawn
    inside the clip square after every [update], whatever its position
    was before. *)
Theorem updated_particles_in_clip (s : t) (time deltaTime : Q) :
  0 < width s -> 0 < height s ->
  let s' := update time deltaTime s in
  Forall (ClipSpec.drawn_in_clip s') (particles s').
Proof.
  intros Hw Hh. cbv zeta. unfold update.
  cbn [with_particles particles]. apply List.Forall_forall. intros q Hq.
  apply List.in_map_iff in Hq as (p & <- & _).
  destruct (FloatingParticlesFacts.move_inside (width s) (height s) deltaTime p)
    as [[Hx0 Hx1] [Hy0 Hy1]]; [lra | lra |].
  unfold ClipSpec.drawn_in_clip, ClipSpec.in_clip, vertex.
  cbn [with_particles width height].
  split; [|reflexivity]. split; now apply clip_coordinate.
Qed.

End WithHost.

#[local] Existing Instance Sample.host.

Lemma resize_keeps_proportions_witness :
  (0 < width Sample.pair /\ 0 < height Sample.pair)
  /\ snd (resize 400 300 Sample.pair Sample.env0) = Sample.env0.
Proof.
  split; [split; reflexivity|].
  exact (proj1 (resize_keeps_proportions 400 300 Sample.pair Sample.env0
                  eq_refl eq_refl)).
Defined.

Lemma resize_composes_witness :
  (0 < width Sample.pair /\ 0 < height Sample.pair /\ 0 < 400 /\ 0 < 300)
  /\ width (fst (resize 1024 768
                    (fst (resize 400 300 Sample.pair Sample.env0)) Sample.env0))
     = width (fst (resize 1024 768 Sample.pair Sample.env0)).
Proof.
  split; [now repeat split|].
  exact (proj1 (resize_composes 400 300 1024 768 Sample.pair Sample.env0
                  eq_refl eq_refl eq_refl eq_refl)).
Defined.


Lemma updated_particles_in_clip_witness :
  (0 < width Sample.pair /\ 0 < height Sample.pair)
  /\ Forall (ClipSpec.drawn_in_clip (update 0 1 Sample.pair))
            (particles (update 0 1 Sample.pair)).
Proof.
  split; [split; reflexivity|].
  exact (updated_particles_in_clip Sample.pair 0 1 eq_refl eq_refl).
Defined.

End FloatingParticlesMore.

(** ** More on the engine *)

Module EngineFacts.
Import VizFX VizFXSpec.

Section Engine.
Context `{Host} {E : Type} `{Effect.t E}.

Lemma frames_stale ids : forall v (pg : Page E),
  rafPending pg = [] -> run (map OpFrame ids) v pg = (v, pg).
Proof.
  induction ids as [|id ids IH]; intros v pg Hp; [reflexivity|].
  cbn [map run call]. rewrite bind_run.
  rewrite VizFXFacts.frame_stale by (rewrite Hp; apply not_elem_of_nil).
  cbn [fst snd]. now apply IH.
Qed.

(** X18: on a page where an engine has been constructed, whatever is
    called afterwards, a pending frame callback is the one a running
    engine remembers in [animationId]; and while the engine is not
    running no frame callback runs at all, so after [stop] no effect is
    updated or rendered any more. *)
Theorem stopped_engine_runs_no_frame
        (o : Options) (devicePixelRatio : option Q) (webgl : bool)
        (e : Env) (objects : gmap nat E) (v0 : t) (pg0 : Page E)
        (ops : list Op) :
  new o devicePixelRatio webgl (blank e objects) = (Some v0, pg0) ->
  let v := fst (run ops v0 pg0) in
  let pg := snd (run ops v0 pg0) in
  (forall id, id ∈ rafPending pg ->
     isRunning v = true /\ animationId v = Some id)
  /\ (isRunning v = false ->
      forall ids, run (map OpFrame ids) v pg = (v, pg)).
Proof.
  intros Hnew. cbv zeta.
  assert (Hs : scheduled (fst (run ops v0 pg0)) (snd (run ops v0 pg0))).
  { apply VizFXFacts.run_scheduled.
    eapply VizFXFacts.new_scheduled; exact Hnew. }
  pose proof Hs as (_ & _ & _ & Hp).
  split.
  - intros id Hid. destruct Hp as [Hp | (Hr & id' & Ha & Hp)];
      rewrite Hp in Hid.
    + now apply elem_of_nil in Hid.
    + apply list_elem_of_singleton in Hid as ->. now split.
  - intros Hr ids. apply frames_stale.
    eapply VizFXFacts.scheduled_idle; [exact Hs | exact Hr].
Qed.

Lemma stop_keeps v (pg : Page E) :
  calls (snd (stop v pg)) = calls pg
  /\ effects (snd (fst (stop v pg))) = effects v
  /\ world (snd (stop v pg)) = world pg.
Proof.
  unfold stop. destruct (isRunning v); cbn [negb]; [|now repeat split].
  destruct (animationId (with_isRunning v false));
    rewrite ?bind_run; now repeat split.
Qed.

Lemma destroy_body_world r (pg : Page E) :
  world (snd ((log (CallDestroy r) ;;; on_effect r Effect.destroy) pg))
  = invoke Effect.destroy (world pg) r.
Proof.
  rewrite bind_run. now rewrite VizFXFacts.world_on_effect, VizFXFacts.world_log.
Qed.

Lemma destroy_calls v (pg : Page E) :
  gl v = true ->
  calls (snd (destroy v pg)) = calls pg ++ map CallDestroy (effects v).
Proof.
  intros Hgl. unfold destroy. rewrite !bind_run.
  rewrite VizFXFacts.stop_gl, Hgl.
  destruct (stop_keeps v pg) as (Hc & He & _). rewrite He.
  cbn [ret removeEventListener closure fst snd calls].
  rewrite VizFXFacts.for_each_calls with (trace := fun r => [CallDestroy r]).
  - rewrite Hc. f_equal; induction (effects v); simpl; congruence.
  - intros r p. rewrite bind_run.
    now rewrite (proj2 (VizFXFacts.on_effect_shell _ _ _)).
Qed.

Lemma destroy_world v (pg : Page E) :
  gl v = true ->
  world (snd (destroy v pg)) = destroy_pass (effects v) (world pg).
Proof.
  intros Hgl. unfold destroy. rewrite !bind_run.
  rewrite VizFXFacts.stop_gl, Hgl.
  destruct (stop_keeps v pg) as (_ & He & Hw). rewrite He.
  cbn [ret removeEventListener closure fst snd].
  unfold world at 1. cbn [env heap].
  match goal with
  | |- (heap ?p, env ?p) = _ =>
      change (world p = destroy_pass (effects v) (world pg))
  end.
  rewrite (VizFXFacts.for_each_world _ _ (invoke Effect.destroy))
    by (intros; apply destroy_body_world).
  unfold destroy_pass. now rewrite Hw.
Qed.

(** X19: [destroy] on a constructed engine calls [destroy] on every
    registered effect object, once per registration and in
    registration order, and does nothing else to the effect objects and
    their environment.  It empties the list, drops the interaction
    manager and leaves the engine stopped with no frame pending.  It
    keeps the WebGL context: a later [start] requests a frame again. *)
Theorem destroy_keeps_context
        (o : Options) (devicePixelRatio : option Q) (webgl : bool)
        (e : Env) (objects : gmap nat E) (v0 : t) (pg0 : Page E)
        (ops : list Op) :
  new o devicePixelRatio webgl (blank e objects) = (Some v0, pg0) ->
  let v := fst (run ops v0 pg0) in
  let pg := snd (run ops v0 pg0) in
  let v' := snd (fst (destroy v pg)) in
  let pg' := snd (destroy v pg) in
  world pg' = destroy_pass (effects v) (world pg)
  /\ calls pg' = calls pg ++ map CallDestroy (effects v)
  /\ effects v' = []
  /\ interactionManager v' = None
  /\ isRunning v' = false
  /\ rafPending pg' = []
  /\ gl v' = true
  /\ rafPending (snd (start v' pg')) = [rafNext pg'].
Proof.
  intros Hnew. cbv zeta.
  assert (Hs : scheduled (fst (run ops v0 pg0)) (snd (run ops v0 pg0))).
  { apply VizFXFacts.run_scheduled.
    eapply VizFXFacts.new_scheduled; exact Hnew. }
  set (v := fst (run ops v0 pg0)) in *. set (pg := snd (run ops v0 pg0)) in *.
  pose proof Hs as (Hgl & _).
  destruct (VizFXFacts.destroy_shell v pg) as (Hsh & Hc & He & Hi & _).
  destruct (VizFXFacts.stop_scheduled v pg Hs) as (Hs' & Hp').
  unfold control in Hc. injection Hc as Hcg Hcr _.
  rewrite VizFXFacts.stop_gl, Hgl in Hcg.
  rewrite VizFXFacts.stop_not_running in Hcr.
  assert (Hpend : rafPending (snd (destroy v pg)) = []).
  { unfold shell in Hsh. injection Hsh as _ Hpd _ _. now rewrite Hpd. }
  split; [now apply destroy_world|].
  repeat split; try assumption.
  - now apply destroy_calls.
  - destruct (VizFXFacts.start_idle _ (snd (destroy v pg)) Hcr Hcg) as (Hst & _).
    unfold shell in Hst. injection Hst as _ Hpd _ _.
    now rewrite Hpd, Hpend.
Qed.

Lemma indexOf_first r l :
  r ∈ l ->
  exists before after,
    l = before ++ r :: after /\ (r ∉ before)
    /\ indexOf r l = Some (length before).
Proof.
  induction l as [|k l IH]; intros Hr; [now apply elem_of_nil in Hr|].
  simpl. destruct (decide (k = r)) as [->|Hne].
  - exists [], l. rewrite bool_decide_eq_true_2 by reflexivity.
    repeat split. apply not_elem_of_nil.
  - apply elem_of_cons in Hr as [Hr|Hr]; [congruence|].
    destruct (IH Hr) as (b & a & -> & Hnb & Hi).
    exists (k :: b), a. rewrite bool_decide_eq_false_2 by exact Hne.
    rewrite Hi. repeat split.
    apply not_elem_of_cons. split; [congruence | exact Hnb].
Qed.

Lemma delete_middle {A} (b : list A) x a :
  delete (length b) (b ++ x :: a) = b ++ a.
Proof. induction b; simpl; congruence. Qed.

(** X20: [removeEffect] of a registered effect calls [destroy] on the
    effect object, once, and does nothing else to the effect objects
    and their environment; it takes the first occurrence of the effect
    out of the list, keeping the order of everything else.  An effect
    that was added twice is therefore still registered after one
    [removeEffect], although its object has been destroyed. *)
Theorem removeEffect_removes_first (effect : nat) (v : t) (pg : Page E) :
  gl v = true -> effect ∈ effects v ->
  world (snd (removeEffect effect v pg))
  = invoke Effect.destroy (world pg) effect
  /\ exists before after,
       effects v = before ++ effect :: after
       /\ (effect ∉ before)
       /\ effects (snd (fst (removeEffect effect v pg))) = before ++ after
       /\ calls (snd (removeEffect effect v pg))
          = calls pg ++ [CallDestroy effect].
Proof.
  intros Hgl Hin.
  destruct (indexOf_first effect (effects v) Hin) as (b & a & Hl & Hnb & Hi).
  split.
  - unfold removeEffect. rewrite Hgl, Hi. cbn [negb]. rewrite !bind_run.
    rewrite VizFXFacts.world_ret.
    now rewrite VizFXFacts.world_on_effect, VizFXFacts.world_log.
  - exists b, a. split; [exact Hl|]. split; [exact Hnb|].
    unfold removeEffect. rewrite Hgl, Hi. cbn [negb]. rewrite !bind_run.
    cbn [ret fst snd with_effects effects].
    split.
    + rewrite Hl. apply delete_middle.
    + now rewrite (proj2 (VizFXFacts.on_effect_shell _ _ _)).
Qed.

(** X21: [start] on a stopped engine runs the first frame at once.  It
    reads the clock twice, once for [startTime] and once in the frame,
    and clears the surface; then, in a single pass over the effects in
    registration order, every effect object is updated with [time] and
    [deltaTime] both equal to the gap between the two readings and
    rendered.  The next frame is requested. *)
Theorem start_runs_first_frame (v : t) (pg : Page E) :
  isRunning v = false -> gl v = true ->
  let n := clockReads (env pg) in
  let elapsed := (performance_now (S n) - performance_now n) / 1000 in
  let cleared :=
    snd (gl_call glClear
           (snd (performance_now_call (snd (performance_now_call (env pg)))))) in
  let v' := snd (fst (start v pg)) in
  let pg' := snd (start v pg) in
  world pg' = interleaved_pass elapsed elapsed (effects v) (heap pg, cleared)
  /\ (glLog cleared = glLog (env pg) ++ [glClear]
      /\ clockReads cleared = S (S n))
  /\ calls pg'
     = calls pg
       ++ CallClear
          :: flat_map (fun r => [CallUpdate r elapsed elapsed; CallRender r])
                      (effects v)
  /\ startTime v' = performance_now n
  /\ lastTime v' = performance_now (S n)
  /\ rafPending pg' = rafPending pg ++ [rafNext pg].
Proof.
  intros Hr Hgl. cbv zeta.
  destruct (VizFXFacts.start_idle v pg Hr Hgl) as (Hst & _).
  unfold shell in Hst. injection Hst as _ Hpd _ _.
  split; [|split; [now split|split; [|split; [|split; [|exact Hpd]]]]].
  - unfold start. rewrite Hr. rewrite !bind_run.
    rewrite VizFXFacts.world_ret.
    rewrite VizFXFacts.animate_world by (reflexivity || exact Hgl).
    reflexivity.
  - unfold start. rewrite Hr. rewrite !bind_run.
    unfold ret at 1. cbn [snd].
    unfold animate. cbn [isRunning gl negb orb]. rewrite Hgl. cbn [negb orb].
    rewrite !bind_run. unfold ret at 1. cbn [snd].
    erewrite VizFXFacts.for_each_calls
      by (intros; apply VizFXFacts.frame_body_calls).
    cbn. now rewrite <- app_assoc.
  - unfold start. rewrite Hr. rewrite !bind_run.
    unfold animate. cbn [isRunning gl negb orb]. rewrite Hgl. cbn [negb orb].
    rewrite !bind_run. reflexivity.
  - unfold start. rewrite Hr. rewrite !bind_run.
    unfold animate. cbn [isRunning gl negb orb]. rewrite Hgl. cbn [negb orb].
    rewrite !bind_run. reflexivity.
Qed.

End Engine.

#[local] Existing Instance Sample.host.
#[local] Existing Instance Effect.any.

Lemma stopped_engine_runs_no_frame_witness :
  match Sample.boot with
  | (Some v0, pg0) =>
      forall id,
        id ∈ rafPending (snd (run [OpAddEffect 0; OpStart; OpFrame 0] v0 pg0)) ->
        isRunning (fst (run [OpAddEffect 0; OpStart; OpFrame 0] v0 pg0)) = true
        /\ animationId (fst (run [OpAddEffect 0; OpStart; OpFrame 0] v0 pg0))
           = Some id
  | (None, _) => False
  end.
Proof.
  destruct Sample.boot as [[v0|] pg0] eqn:Hboot.
  - exact (proj1 (stopped_engine_runs_no_frame
                    Sample.options (Some 1) true Sample.env0 Sample.objects
                    v0 pg0 [OpAddEffect 0; OpStart; OpFrame 0] Hboot)).
  - vm_compute in Hboot. discriminate Hboot.
Defined.

Lemma destroy_keeps_context_witness :
  match Sample.boot with
  | (Some v0, pg0) =>
      let v := fst (run [OpAddEffect 0; OpAddEffect 1; OpStart] v0 pg0) in
      let pg := snd (run [OpAddEffect 0; OpAddEffect 1; OpStart] v0 pg0) in
      world (snd (destroy v pg)) = destroy_pass (effects v) (world pg)
  | (None, _) => False
  end.
Proof.
  destruct Sample.boot as [[v0|] pg0] eqn:Hboot.
  - exact (proj1 (destroy_keeps_context
                    Sample.options (Some 1) true Sample.env0 Sample.objects
                    v0 pg0 [OpAddEffect 0; OpAddEffect 1; OpStart] Hboot)).
  - vm_compute in Hboot. discriminate Hboot.
Defined.

Lemma removeEffect_removes_first_witness :
  let v := mk Sample.canvas true [1; 0; 1]%nat None 0 0 false None 2 in
  (gl v = true /\ 1%nat ∈ effects v)
  /\ world (snd (removeEffect 1 v Sample.page))
     = invoke Effect.destroy (world Sample.page) 1%nat.
Proof.
  cbv zeta.
  assert (Hin : 1%nat ∈ [1; 0; 1]%nat) by constructor.
  split; [split; [reflexivity | exact Hin]|].
  exact (proj1 (removeEffect_removes_first
                  1 (mk Sample.canvas true [1; 0; 1]%nat None 0 0 false None 2)
                  Sample.page eq_refl Hin)).
Defined.

Lemma start_runs_first_frame_witness :
  let v := mk Sample.canvas true [0; 1]%nat None 0 0 false None 2 in
  let elapsed := (performance_now 1 - performance_now 0) / 1000 in
  world (snd (start v Sample.page))
  = interleaved_pass elapsed elapsed [0; 1]%nat
      (heap Sample.page,
       snd (gl_call glClear
              (snd (performance_now_call
                      (snd (performance_now_call (env Sample.page))))))).
Proof.
  exact (proj1 (start_runs_first_frame
                  (mk Sample.canvas true [0; 1]%nat None 0 0 false None 2)
                  Sample.page eq_refl eq_refl)).
Defined.

End EngineFacts.

(** ** More on the pointer *)

Module PointerFacts.
Import InteractionManager InteractionSpec.

Section WithHost.
Context `{Host}.

Lemma handleMove_isDown rect cx cy m e :
  isDown (pointer (fst (handleMove rect cx cy m e))) = isDown (pointer m).
Proof. unfold handleMove. now rewrite bind_run. Qed.

Lemma dispatch_button rect ev m e :
  isDown (pointer (fst (dispatch rect ev m e)))
  = default (isDown (pointer m)) (button ev).
Proof.
  destruct ev as [cx cy| | | |[|[cx cy] ts]|[|[cx cy] ts]|];
    cbn [dispatch button default];
    first [reflexivity | apply handleMove_isDown | now rewrite bind_run].
Qed.

Lemma dispatch_all_app rect evs1 evs2 : forall m e,
  dispatch_all rect (evs1 ++ evs2) m e
  = dispatch_all rect evs2 (fst (dispatch_all rect evs1 m e))
                 (snd (dispatch_all rect evs1 m e)).
Proof.
  induction evs1 as [|ev evs1 IH]; intros m e; [reflexivity|].
  cbn [app dispatch_all]. now rewrite !bind_run, IH.
Qed.

(** X22: after any sequence of pointer events the button is down
    exactly when the most recent press or release event was a press
    (mousedown, or touchstart with a touch); moves and touch events
    without touches leave it alone.  Right after a release (mouseup,
    mouseleave, touchend) the velocity is zero. *)
Theorem isDown_follows_last_button (rect : Rect) (evs : list Event)
        (m : t) (e : Env) :
  isDown (pointer (fst (dispatch_all rect evs m e)))
  = button_after evs (isDown (pointer m))
  /\ (forall ev, button ev = Some false ->
        velocity (pointer (fst (dispatch_all rect (evs ++ [ev]) m e)))
        = mkVec2 0 0).
Proof.
  split.
  - revert m e. induction evs as [|ev evs IH]; intros m e; [reflexivity|].
    cbn [dispatch_all]. rewrite bind_run, IH.
    unfold button_after. cbn [fold_left]. now rewrite dispatch_button.
  - intros ev Hev. rewrite dispatch_all_app.
    cbn [dispatch_all]. rewrite bind_run.
    destruct ev as [cx cy| | | |[|[cx cy] ts]|[|[cx cy] ts]|];
      try discriminate Hev; reflexivity.
Qed.

End WithHost.

End PointerFacts.

(** ** Floating particles stay on the surface *)

Module SurfaceFacts.
Import FloatingParticles FloatingParticlesSpec SurfaceSpec.

Section WithHost.
Context `{Host}.

Lemma random_range min max e :
  unit_random -> min <= max ->
  min <= fst (random min max e) /\ fst (random min max e) <= max.
Proof.
  intros Hunit Hmm. unfold random. rewrite bind_run.
  cbn [Math_random_call ret fst snd].
  destruct (Hunit (draws e)) as [H0 H1].
  set (u := Math_random (draws e)) in *.
  assert (0 <= u * (max - min)) by (apply Qmult_le_0_compat; lra).
  assert (u * (max - min) <= 1 * (max - min))
    by (apply Qmult_le_compat_r; lra).
  lra.
Qed.

Lemma spawn_inside s e :
  unit_random -> 0 <= width s -> 0 <= height s ->
  inside (width s) (height s) (fst (spawn s e)).
Proof.
  intros Hunit Hw Hh. unfold spawn. rewrite !bind_run.
  cbn [ret fst]. unfold inside. cbn [position x y].
  split; now apply random_range.
Qed.

Lemma spawn_many_inside s n :
  unit_random -> 0 <= width s -> 0 <= height s ->
  forall e, Forall (inside (width s) (height s)) (fst (spawn_many s n e)).
Proof.
  intros Hunit Hw Hh. induction n as [|n IH]; intros e; cbn [spawn_many].
  - constructor.
  - rewrite !bind_run. cbn [ret fst]. constructor; [now apply spawn_inside|].
    apply IH.
Qed.

Lemma initParticles_on_surface s e :
  unit_random -> 0 <= width s -> 0 <= height s -> on_surface (fst (initParticles s e)).
Proof.
  intros Hunit Hw Hh. unfold initParticles. rewrite bind_run.
  cbn [ret fst]. unfold on_surface. cbn [with_particles width height particles].
  split; [now split|]. now apply spawn_many_inside.
Qed.

Lemma call_on_surface op s e :
  unit_random -> sized op -> on_surface s -> on_surface (fst (call op s e)).
Proof.
  intros Hunit Hop [[Hw Hh] Hin]. destruct op as [time dt| |w h]; cbn [call].
  - cbn [ret fst]. unfold on_surface, update.
    cbn [with_particles width height particles].
    split; [now split|]. apply List.Forall_forall. intros q Hq.
    apply List.in_map_iff in Hq as (p & <- & _).
    now apply FloatingParticlesFacts.move_inside.
  - rewrite bind_run. cbn [ret fst]. now split.
  - destruct Hop as [Hw' Hh']. unfold resize.
    destruct (Qlt_bool 0 (width s) && Qlt_bool 0 (height s)) eqn:Hpos.
    + apply andb_true_iff in Hpos as [Hpw Hph].
      apply Qlt_bool_iff in Hpw. apply Qlt_bool_iff in Hph.
      cbn [ret fst]. unfold on_surface.
      cbn [with_particles with_size width height particles].
      split; [now split|]. apply List.Forall_forall. intros q Hq.
      apply List.in_map_iff in Hq as (p & <- & Hp).
      pose proof (proj1 (List.Forall_forall _ _) Hin p Hp) as [[Hx0 Hx1] [Hy0 Hy1]].
      unfold inside, rescale. cbn [position x y].
      split; now apply FloatingParticlesMore.scaled_within.
    + now apply initParticles_on_surface.
Qed.

Lemma run_on_surface ops :
  unit_random -> Forall sized ops ->
  forall s e, on_surface s -> on_surface (fst (run ops s e)).
Proof.
  intros Hunit. induction 1 as [|op ops Hop _ IH]; intros s e Hs; cbn [run].
  - exact Hs.
  - rewrite bind_run. apply IH. now apply call_on_surface.
Qed.

(** X23: provided [Math.random] answers within [0, 1], every particle
    of a [FloatingParticles] effect lies on the logical surface after
    [init] and after any sequence of [update], [render] and [resize]
    calls whose sizes are not negative: spawning, wrapping and rescaling
    all keep positions between 0 and the width and height. *)
Theorem particles_stay_on_surface (o : Options) (ops : list Op) (e : Env) :
  unit_random -> Forall sized ops ->
  let s := fst (run ops (fst (init (new o) e)) (snd (init (new o) e))) in
  Forall (inside (width s) (height s)) (particles s).
Proof.
  intros Hunit Hops. cbv zeta. apply run_on_surface; [exact Hunit | exact Hops|].
  unfold init. rewrite !bind_run.
  apply initParticles_on_surface; [exact Hunit | |];
    cbn [width height new]; lra.
Qed.

End WithHost.

Lemma uniform_unit k : 0 <= Sample.uniform k /\ Sample.uniform k <= 1.
Proof.
  unfold Sample.uniform, Qle. cbn [Qnum Qden].
  pose proof (Nat.mod_upper_bound k 8). lia.
Qed.

#[local] Existing Instance Sample.host.

Lemma particles_stay_on_surface_witness :
  unit_random
  /\ Forall sized [OpResize 800 600; OpUpdate 0 (1 # 60); OpRender;
                   OpResize 400 300]
  /\ Forall (inside 400 300)
            (particles
               (fst (run [OpResize 800 600; OpUpdate 0 (1 # 60); OpRender;
                          OpResize 400 300]
                         (fst (init (new (mkOptions 2 "#ffffff" 2 20 150 true))
                                    Sample.env0))
                         (snd (init (new (mkOptions 2 "#ffffff" 2 20 150 true))
                                    Sample.env0))))).
Proof.
  assert (Hs : Forall sized [OpResize 800 600; OpUpdate 0 (1 # 60); OpRender;
                             OpResize 400 300]).
  { repeat constructor; cbn; lra. }
  split; [exact uniform_unit|]. split; [exact Hs|].
  exact (particles_stay_on_surface
           (mkOptions 2 "#ffffff" 2 20 150 true)
           [OpResize 800 600; OpUpdate 0 (1 # 60); OpRender; OpResize 400 300]
           Sample.env0 uniform_unit Hs).
Defined.

End SurfaceFacts.
